(** * A shallow embedding of mind1949/raft

    The development follows the Go sources file by file:
    - [Log]    : log.go, the in-memory log [memoryLog] and its operations;
    - [Raft]   : raft.go, the node and its role conversions;
    - [Leader] : the leader role (Commit, one AppendEntries exchange with a
                 peer, calcCommitIndex).

    Go's [uint64] and [int] are integers of [Z] with the wrap-around written
    out where the source does arithmetic on them.  A method with a pointer
    receiver takes the receiver's value and returns the updated one. *)

From stdpp Require Import gmap strings list sorting.
From Stdlib Require Import ZArith Lia.

Open Scope Z_scope.

(** ** Machine integers *)

(** Conversion to [uint64]: the value modulo 2^64. *)
Definition uint64 (x : Z) : Z := x mod 2 ^ 64.

(** Conversion to [int] (64 bits, two's complement). *)
Definition int (x : Z) : Z := (x + 2 ^ 63) mod 2 ^ 64 - 2 ^ 63.

(** An [error] value; [None] is Go's [nil]. *)
Definition error : Type := string.

(** ** log.go *)

Module Log.

(** Modelled from the spec: the declaration of [Command] is not in the
    sources at hand; the spec calls it an opaque byte payload.  Its zero
    value is the empty payload. *)
Definition Command : Type := string.

Inductive LogEntryType : Type :=
  | logEntryTypeCommand
  | logEntryTypeClusterConfiguration.

(** [LogEntry]; the fields [Type] and [Command] are spelled [Typ] and [Cmd],
    [AppendTime] is a clock reading. *)
Record LogEntry : Type := mkLogEntry {
  Index : Z;
  Term : Z;
  Typ : LogEntryType;
  Cmd : Command;
  AppendTime : Z
}.

(** The zero value of the struct. *)
Definition zeroLogEntry : LogEntry :=
  {| Index := 0; Term := 0; Typ := logEntryTypeCommand; Cmd := "";
     AppendTime := 0 |}.

(** [entries[i].Index = v] *)
Definition setIndex (v : Z) (e : LogEntry) : LogEntry :=
  {| Index := v; Term := Term e; Typ := Typ e; Cmd := Cmd e;
     AppendTime := AppendTime e |}.

(** [memoryLog]: the mutex serialises the methods and is not represented. *)
Record memoryLog : Type := mkLog { queue : list LogEntry }.

(** [uint64(len(l.queue))] *)
Definition len (l : memoryLog) : Z := uint64 (Z.of_nat (length (queue l))).

Definition Get (l : memoryLog) (index : Z) : Z * option error :=
  if index =? 0 then (0, None)
  else
    let index := uint64 (index - 1) in
    let length := len l in
    if (0 <=? index) && (index <? length) then
      match queue l !! Z.to_nat index with
      | Some entry => (Term entry, None)
      | None => (0, None)
      end
    else (0, None).

Definition Match (l : memoryLog) (index term : Z) : bool * option error :=
  let '(target, err) := Get l index in
  match err with
  | Some e => (false, Some e)
  | None => (term =? target, None)
  end.

Definition last (l : memoryLog) : Z * Z * option error :=
  if (length (queue l) =? 0)%nat then (0, 0, None)
  else
    match queue l !! (length (queue l) - 1)%nat with
    | Some entry => (Index entry, Term entry, None)
    | None => (0, 0, None)
    end.

Definition Last (l : memoryLog) : Z * Z * option error := last l.

(** The loop of [RangeGet]: [for ; k <= j && k < len; k++].  Every round
    has [k < len], so [length (queue l) + 1] rounds of fuel are never used
    up ([RangeGet_loop_fuel]); [None] is the run that would need more. *)
Fixpoint RangeGet_loop (fuel : nat) (l : memoryLog) (k j : Z)
    (entries : list LogEntry) : option (list LogEntry) :=
  match fuel with
  | O => None
  | S fuel =>
      if (k <=? j) && (k <? len l) then
        match queue l !! Z.to_nat k with
        | Some e => RangeGet_loop fuel l (uint64 (k + 1)) j (entries ++ [e])
        | None => Some entries
        end
      else Some entries
  end.

Definition RangeGet (l : memoryLog) (i j : Z)
    : option (list LogEntry * option error) :=
  if j <=? i then Some ([], None)
  else
    let i := uint64 (i - 1) in
    let j := uint64 (j - 1) in
    entries ← RangeGet_loop (S (length (queue l))) l (uint64 (i + 1)) j [];
    Some (entries, None).

Definition popAfter (l : memoryLog) (i : Z) : memoryLog * option error :=
  if i =? len l then (l, None)
  else if len l <? i then (l, Some "index out of log's range")
  else (mkLog (take (Z.to_nat i) (queue l)), None).

(** [append] writes the new indices into the caller's slice before it
    copies the entries to the queue: the slice as the caller sees it after
    the call is the second component of the result. *)
Definition append (l : memoryLog) (entries : list LogEntry)
    : memoryLog * list LogEntry * option error :=
  let '(start, _, err) := last l in
  match err with
  | Some e => (l, entries, Some e)
  | None =>
      let entries :=
        imap (fun i e => setIndex (uint64 (start + uint64 (Z.of_nat i) + 1)) e)
             entries in
      (mkLog (queue l ++ entries), entries, None)
  end.

Definition Append (l : memoryLog) (entries : list LogEntry)
    : memoryLog * list LogEntry * option error :=
  append l entries.

Definition AppendAt (l : memoryLog) (prevIndex : Z) (entries : list LogEntry)
    : memoryLog * list LogEntry * option error :=
  let '(l', err) := popAfter l prevIndex in
  match err with
  | Some e => (l', entries, Some e)
  | None => append l' entries
  end.

Definition AppendEntry (l : memoryLog) (entry : LogEntry)
    : memoryLog * Z * option error :=
  let '(start, _, err) := last l in
  match err with
  | Some e => (l, 0, Some e)
  | None =>
      let entry := setIndex (uint64 (start + 1)) entry in
      (mkLog (queue l ++ [entry]), Index entry, None)
  end.

(** The logs a node can hold: a fresh [memoryLog] and what the mutating
    methods make of it, whatever entries the callers pass. *)
Inductive reachable : memoryLog -> Prop :=
  | reachable_new : reachable (mkLog [])
  | reachable_Append l entries :
      reachable l -> reachable (Append l entries).1.1
  | reachable_AppendAt l prevIndex entries :
      0 <= prevIndex < 2 ^ 64 ->
      reachable l -> reachable (AppendAt l prevIndex entries).1.1
  | reachable_AppendEntry l entry :
      reachable l -> reachable (AppendEntry l entry).1.1.

(** A Go slice has fewer than 2^63 elements. *)
Definition fits (l : memoryLog) : Prop :=
  Z.of_nat (length (queue l)) < 2 ^ 63.

(** Entry number [k] of the queue (from 0) carries index [k + 1]. *)
Definition contiguous (l : memoryLog) : Prop :=
  forall (k : nat) e, queue l !! k = Some e -> Index e = Z.of_nat k + 1.

(** The same with the wrap-around of [uint64], as [append] computes the
    indices: entry number [k] carries index [k + 1] modulo 2^64. *)
Definition indexed (l : memoryLog) : Prop :=
  forall (k : nat) e,
    queue l !! k = Some e -> Index e = uint64 (Z.of_nat k + 1).

(** [last().index], the index that the log reports for its last entry. *)
Definition lastIndex (l : memoryLog) : Z := (last l).1.1.

(** [last().term], the term that the log reports for its last entry. *)
Definition lastTerm (l : memoryLog) : Z := (last l).1.2.

(** The entries with the indices [start + 1], [start + 2], ... written
    over their [Index] fields. *)
Definition renumber (start : Z) (entries : list LogEntry) : list LogEntry :=
  imap (fun i e => setIndex (start + Z.of_nat i + 1) e) entries.

(** The log holds an entry with index [i] and term [t]. *)
Definition hasEntry (l : memoryLog) (i t : Z) : Prop :=
  exists e, e ∈ queue l /\ Index e = i /\ Term e = t.

End Log.

(** ** raft.go *)

Module Raft.

Definition RaftId : Type := string.
Definition RaftAddr : Type := string.

Definition isNil (id : RaftId) : bool := bool_decide (id = "").

(** Modelled from the spec: the struct [state] is not in the sources at
    hand.  The spec lists the durable [currentTerm] and [votedFor], the
    volatile [commitIndex] and [lastApplied], and one getter and one setter
    for each; a setter writes its own field.  An unset [votedFor] is the nil
    id. *)
Record state : Type := mkState {
  currentTerm : Z;
  votedFor : RaftId;
  commitIndex : Z;
  lastApplied : Z
}.

(** The node.  [commitCond] counts the calls of [Signal] on the condition
    that wakes the apply loop (the leader's file calls it [applyCond]);
    the transport, the ticker, the logger and the [done] channel are not
    represented. *)
Record raft : Type := mkRaft {
  id : RaftId;
  st : state;
  log : Log.memoryLog;
  peers : gmap RaftId RaftAddr;
  commitCond : nat
}.

Definition setState (r : raft) (s : state) : raft :=
  {| id := id r; st := s; log := log r; peers := peers r;
     commitCond := commitCond r |}.

Definition setLog (r : raft) (l : Log.memoryLog) : raft :=
  {| id := id r; st := st r; log := l; peers := peers r;
     commitCond := commitCond r |}.

Definition Signal (r : raft) : raft :=
  {| id := id r; st := st r; log := log r; peers := peers r;
     commitCond := S (commitCond r) |}.

Definition GetCurrentTerm (r : raft) : Z := currentTerm (st r).
Definition GetVotedFor (r : raft) : RaftId := votedFor (st r).
Definition GetCommitIndex (r : raft) : Z := commitIndex (st r).
Definition GetLastApplied (r : raft) : Z := lastApplied (st r).

Definition SetCurrentTerm (r : raft) (term : Z) : raft :=
  setState r {| currentTerm := term; votedFor := votedFor (st r);
                commitIndex := commitIndex (st r);
                lastApplied := lastApplied (st r) |}.

Definition SetVotedFor (r : raft) (v : RaftId) : raft :=
  setState r {| currentTerm := currentTerm (st r); votedFor := v;
                commitIndex := commitIndex (st r);
                lastApplied := lastApplied (st r) |}.

Definition SetCommitIndex (r : raft) (i : Z) : raft :=
  setState r {| currentTerm := currentTerm (st r);
                votedFor := votedFor (st r); commitIndex := i;
                lastApplied := lastApplied (st r) |}.

Definition SetLastApplied (r : raft) (i : Z) : raft :=
  setState r {| currentTerm := currentTerm (st r);
                votedFor := votedFor (st r);
                commitIndex := commitIndex (st r); lastApplied := i |}.

(** The node's files count indices and terms in [int], log.go in [uint64]:
    the calls of the embedded [Log] convert on the way in and out. *)
Definition Last (r : raft) : Z * Z * option error :=
  let '(index, term, err) := Log.Last (log r) in (int index, int term, err).

Definition Get (r : raft) (index : Z) : Z * option error :=
  let '(term, err) := Log.Get (log r) (uint64 index) in (int term, err).

Definition RangeGet (r : raft) (i j : Z)
    : option (list Log.LogEntry * option error) :=
  Log.RangeGet (log r) (uint64 i) (uint64 j).

Definition Append (r : raft) (entries : list Log.LogEntry)
    : raft * list Log.LogEntry * option error :=
  let '(l, entries, err) := Log.Append (log r) entries in
  (setLog r l, entries, err).

(** [raftIdIndexMap]: a [sync.Map] from [RaftId] to [int]. *)
Definition raftIdIndexMap : Type := gmap RaftId Z.

Definition Load (m : gmap RaftId Z) (id : RaftId) : Z * bool :=
  match m !! id with
  | Some value => (value, true)
  | None => (0, false)
  end.

Definition Store (m : gmap RaftId Z) (id : RaftId) (index : Z)
    : gmap RaftId Z :=
  <[id := index]> m.

(** [Range] calls [fn] on the pairs of the map, in no specified order, until
    [fn] returns false; [fn] works on the variables it has captured, here
    the accumulator. *)
Fixpoint Range_pairs {A : Type} (kvs : list (RaftId * Z))
    (fn : RaftId -> Z -> A -> A * bool) (acc : A) : A :=
  match kvs with
  | [] => acc
  | (id, index) :: rest =>
      let '(acc, continue) := fn id index acc in
      if continue then Range_pairs rest fn acc else acc
  end.

Definition Range {A : Type} (m : gmap RaftId Z)
    (fn : RaftId -> Z -> A -> A * bool) (acc : A) : A :=
  Range_pairs (map_to_list m) fn acc.

(** The role objects.  Each holds the node; the leader adds its two maps. *)
Record leader : Type := mkLeader {
  node : raft;
  nextIndex : gmap RaftId Z;
  matchIndex : gmap RaftId Z
}.

Inductive server : Type :=
  | follower (r : raft)
  | candidate (r : raft)
  | Leader (l : leader).

(** Modelled from the spec: the interface [rpcArgs] is not in the sources
    at hand; raft.go reads the term and the caller of the arguments of an
    RPC through [getTerm] and [getCallerId]. *)
Record rpcArgs : Type := mkArgs {
  getTerm : Z;
  getCallerId : RaftId
}.

Definition syncLeaderCommit (r : raft) (leaderCommit : Z)
    : raft * option error :=
  if leaderCommit <=? GetCommitIndex r then (r, None)
  else
    let commitIndex := leaderCommit in
    let '(lastIndex, _, err) := Last r in
    match err with
    | Some e => (r, Some e)
    | None =>
        let commitIndex :=
          if lastIndex <? commitIndex then lastIndex else commitIndex in
        let r := SetCommitIndex r commitIndex in
        let r := Signal r in
        (r, None)
    end.

(** [ToFollower(votedFor, term...)]: the timer reset is not represented. *)
Definition ToFollower (r : raft) (votedFor : RaftId) (term : list Z)
    : raft * server :=
  let r :=
    match term with
    | t :: _ => SetCurrentTerm r t
    | [] => r
    end in
  (r, follower r).

Definition reactToRPCArgs (r : raft) (args : rpcArgs)
    : raft * option server * bool :=
  if getTerm args >? GetCurrentTerm r then
    let '(r, server) := ToFollower r (getCallerId args) [getTerm args] in
    (r, Some server, true)
  else (r, None, false).

Definition ToCandidate (r : raft) : raft * server :=
  let nextTerm := int (GetCurrentTerm r + 1) in
  let r := SetCurrentTerm r nextTerm in
  let r := SetVotedFor r (id r) in
  (r, candidate r).

Definition ToLeader (r : raft) : option leader * option error :=
  let server := mkLeader r ∅ ∅ in
  let '(lastLogIndex, _, err) := Last r in
  match err with
  | Some e => (None, Some e)
  | None =>
      let server :=
        foldl (fun server kv =>
                 let raftId := kv.1 in
                 mkLeader (node server)
                   (Store (nextIndex server) raftId (int (lastLogIndex + 1)))
                   (Store (matchIndex server) raftId 0))
              server (map_to_list (peers r)) in
      (Some server, None)
  end.

(** [sendRPCArgs]: a send that does not block on the channel [rpcArgs],
    which [New] makes with room for one value.  The channel is the list of
    the values it holds, oldest first. *)
Definition sendRPCArgs (r : raft) (rpcArgs : list rpcArgs) (args : Raft.rpcArgs)
    : list Raft.rpcArgs :=
  if getTerm args <=? GetCurrentTerm r then rpcArgs
  else if (length rpcArgs <? 1)%nat then rpcArgs ++ [args]
  else rpcArgs.

(** [initServer]: the role the node starts in; [New] stores it in the
    node. *)
Definition initServer (r : raft) : option server * option error :=
  let votedFor := GetVotedFor r in
  if negb (isNil votedFor) && bool_decide (votedFor = id r) then
    let '(l, err) := ToLeader r in
    (Leader <$> l, err)
  else (Some (ToFollower r votedFor []).2, None).

(** The callback [Apply].  Modelled from the spec: [Commands] and
    [newCommands] are not in the sources at hand; the callback is handed the
    commands in their order and answers with the number it applied. *)
Definition Apply : Type := list Log.Command -> Z * option error.

Definition newCommands (data : list Log.Command) : list Log.Command := data.

(** [ApplyCommitted].  The two locals start at zero, so the test before
    the reads of the state is [0 <= 0]. *)
Definition ApplyCommitted (apply : Apply) (r : raft)
    : option (raft * option error) :=
  let commitIndex := 0 in
  let lastApplied := 0 in
  let '(commitIndex, lastApplied) :=
    if commitIndex <=? lastApplied then (GetCommitIndex r, GetLastApplied r)
    else (commitIndex, lastApplied) in
  got ← RangeGet r lastApplied commitIndex;
  match got.2 with
  | Some e => Some (r, Some e)
  | None =>
      let data := foldl (fun data e => data ++ [Log.Cmd e]) [] got.1 in
      let commands := newCommands data in
      let '(appliedCount, err) := apply commands in
      match err with
      | Some e => Some (r, Some e)
      | None =>
          let lastApplied := int (lastApplied + appliedCount) in
          Some (SetLastApplied r lastApplied, None)
      end
  end.

End Raft.

(** ** The leader role *)

Module Leader.

Import Raft.

(** Modelled from the spec: the structs of the AppendEntries RPC are not in
    the sources at hand; the leader fills [(term, leaderId, prevLogIndex,
    prevLogTerm, entries, leaderCommit)] and reads [Success] of the
    results, which carry [(term, success)]. *)
Record AppendEntriesArgs : Type := mkAppendEntriesArgs {
  argsTerm : Z;
  LeaderId : RaftId;
  PrevLogIndex : Z;
  PrevLogTerm : Z;
  Entries : list Log.LogEntry;
  LeaderCommit : Z
}.

Record AppendEntriesResults : Type := mkAppendEntriesResults {
  resultsTerm : Z;
  Success : bool
}.

Definition setNode (l : leader) (r : raft) : leader :=
  mkLeader r (nextIndex l) (matchIndex l).

(** [sort.Ints] *)
Definition sort_Ints (a : list Z) : list Z := merge_sort Z.le a.

(** The values [calcCommitIndex] sorts: those it collects from [matchIndex]
    with [Range], and [commitIndex] appended to them. *)
Definition collected (l : leader) : list Z :=
  let matchIndex :=
    Range (matchIndex l) (fun _ index acc => (acc ++ [index], true)) [] in
  let commitIndex := GetCommitIndex (node l) in
  matchIndex ++ [commitIndex].

(** [nextCommitIndex], the candidate that [calcCommitIndex] compares with
    [commitIndex]; the slice has an element, so [mid] is in range. *)
Definition nextCommitIndex (l : leader) : Z :=
  let matchIndex := sort_Ints (collected l) in
  let mid := (length matchIndex / 2)%nat in
  matchIndex !!! mid.

(** The candidate as the spec words it, to compare with the code's: the
    values of [matchIndex] with the leader's own last log index, sorted
    ascending, the median. *)
Definition spec_candidate (l : leader) : Z :=
  let values :=
    (map_to_list (matchIndex l)).*2 ++ [(Last (node l)).1.1] in
  let sorted := merge_sort Z.le values in
  sorted !!! (length sorted / 2)%nat.

Definition calcCommitIndex (l : leader) : leader * option error :=
  let '(_, lastLogTerm, _) := Last (node l) in
  if negb (lastLogTerm =? GetCurrentTerm (node l)) then (l, None)
  else
    let commitIndex := GetCommitIndex (node l) in
    let nextCommitIndex := nextCommitIndex l in
    if nextCommitIndex <=? commitIndex then (l, None)
    else
      let '(entryTerm, err) := Get (node l) nextCommitIndex in
      match err with
      | Some e => (l, Some e)
      | None =>
          if negb (entryTerm =? GetCurrentTerm (node l)) then (l, None)
          else
            let l := setNode l (SetCommitIndex (node l) nextCommitIndex) in
            let l := setNode l (Signal (node l)) in
            (l, None)
      end.

(** [Commit] up to the call of [callAppendEntriesWithAll]: the entries it
    builds and the local append.  The replication round that follows and
    its deadline are not represented. *)
Definition Commit_entries (currentTerm : Z) (cmd : list Log.Command)
    : list Log.LogEntry :=
  let entries := replicate (length cmd) Log.zeroLogEntry in
  foldl (fun entries c =>
           entries ++ [ {| Log.Index := 0; Log.Term := currentTerm;
                           Log.Typ := Log.logEntryTypeCommand; Log.Cmd := c;
                           Log.AppendTime := 0 |} ])
        entries cmd.

Definition Commit (l : leader) (cmd : list Log.Command)
    : leader * option error :=
  let currentTerm := GetCurrentTerm (node l) in
  let entries := Commit_entries currentTerm cmd in
  let '(r, _, err) := Append (node l) entries in
  (setNode l r, err).

(** One round of the loop that [callAppendEntriesWithAll] runs for the peer
    [id], in two halves around the call of the peer.  [roundArgs] reads
    [nextIndex] and builds the arguments; [None] is a return on an error of
    the log. *)
Definition roundArgs (l : leader) (id : RaftId)
    : option (Z * AppendEntriesArgs) :=
  let '(nextIndex, _) := Load (nextIndex l) id in
  let prevLogIndex := int (nextIndex - 1) in
  let '(prevLogTerm, err) := Get (node l) prevLogIndex in
  match err with
  | Some _ => None
  | None =>
      let '(lastLogIndex, lastLogTerm, _) := Last (node l) in
      let entries :=
        if lastLogTerm =? GetCurrentTerm (node l) then
          if lastLogIndex >=? nextIndex then
            RangeGet (node l) (int (nextIndex - 1)) lastLogIndex
          else Some ([], None)
        else Some ([], None) in
      match entries with
      | Some (entries, None) =>
          Some (nextIndex,
                {| argsTerm := GetCurrentTerm (node l);
                   LeaderId := Raft.id (node l);
                   PrevLogIndex := prevLogIndex;
                   PrevLogTerm := prevLogTerm;
                   Entries := entries;
                   LeaderCommit := GetCommitIndex (node l) |})
      | _ => None
      end
  end.

(** [roundResults] is the rest of the round, from the results of the call
    ([None]: the transport failed).  It returns the leader, whether the
    round sent on [replicateCh], and whether the loop goes on. *)
Definition roundResults (l : leader) (id : RaftId) (nextIndex : Z)
    (args : AppendEntriesArgs) (results : option AppendEntriesResults)
    : leader * bool * bool :=
  match results with
  | None => (l, false, false)
  | Some results =>
      if Success results then
        let l :=
          if (0 <? length (Entries args))%nat then
            match Entries args !! (length (Entries args) - 1)%nat with
            | Some e =>
                let nextIndex := int (Log.Index e + 1) in
                mkLeader (node l) (Store (Raft.nextIndex l) id nextIndex)
                  (matchIndex l)
            | None => l
            end
          else l in
        let l :=
          mkLeader (node l) (Raft.nextIndex l)
            (Store (matchIndex l) id (PrevLogIndex args)) in
        let '(l, _) := calcCommitIndex l in
        (l, true, false)
      else
        let l :=
          mkLeader (node l) (Store (Raft.nextIndex l) id (int (nextIndex - 1)))
            (matchIndex l) in
        (l, false, true)
  end.

(** A round against a peer that answers [call args]. *)
Definition round (l : leader) (id : RaftId)
    (call : AppendEntriesArgs -> option AppendEntriesResults)
    : leader * bool * bool :=
  match roundArgs l id with
  | None => (l, false, false)
  | Some (nextIndex, args) => roundResults l id nextIndex args (call args)
  end.

(** The values [calcCommitIndex] would sort if [Range] visited the pairs of
    [matchIndex] in the order [pairs]. *)
Definition collected_in (pairs : list (RaftId * Z)) (l : leader) : list Z :=
  let matchIndex :=
    Range_pairs pairs (fun _ index acc => (acc ++ [index], true)) [] in
  let commitIndex := GetCommitIndex (node l) in
  matchIndex ++ [commitIndex].

(** Modelled from the spec: the declaration of [ErrCommitTimeout] is not in
    the sources at hand. *)
Definition ErrCommitTimeout : error := "err: commit timeout".

(** The loop that ends [callAppendEntriesWithAll].  Each round its [select]
    takes one of two cases: [done] is closed, or a value is received from
    [replicateCh].  [picks] is the sequence of the cases taken; the loop is
    still waiting ([None]) when the sequence ends before it returns. *)
Inductive pick : Type :=
  | pick_done
  | pick_replicateCh.

Fixpoint waitReplication (peers : nat) (count : Z) (picks : list pick)
    : option (option error) :=
  match picks with
  | [] => None
  | pick_done :: _ => Some (Some ErrCommitTimeout)
  | pick_replicateCh :: picks =>
      let count := int (count + 1) in
      if count >? Z.of_nat (peers / 2) then Some None
      else waitReplication peers count picks
  end.

End Leader.

(** ** Concrete nodes *)

Module Scenario.

Import Raft Leader.

(** An entry as a caller passes it, with an index of the caller's. *)
Definition entry (term : Z) (c : Log.Command) : Log.LogEntry :=
  {| Log.Index := 77; Log.Term := term; Log.Typ := Log.logEntryTypeCommand;
     Log.Cmd := c; Log.AppendTime := 0 |}.

(** A log of three entries, of terms 1, 1 and 2. *)
Definition log3 : Log.memoryLog :=
  (Log.Append (Log.mkLog []) [entry 1 "x"; entry 1 "y"; entry 2 "z"]).1.1.

(** A cluster of three nodes. *)
Definition peers3 : gmap RaftId RaftAddr :=
  <["A" := "a:7000"]> (<["B" := "b:7000"]> (<["C" := "c:7000"]> ∅)).

(** Node C in term 1, having voted for A; B calls it with term 2. *)
Definition voter : raft :=
  mkRaft "C" (mkState 1 "A" 0 0) (Log.mkLog []) peers3 0.
Definition call_term2 : rpcArgs := mkArgs 2 "B".



(** Node A, elected in term 1 with an empty log, as [ToLeader] makes it. *)
Definition nodeA : raft :=
  mkRaft "A" (mkState 1 "A" 0 0) (Log.mkLog []) peers3 0.
Definition leader0 : leader :=
  default (mkLeader nodeA ∅ ∅) (ToLeader nodeA).1.

(** The leader after [Commit] of the one command "x". *)
Definition leader1 : leader := (Commit leader0 ["x"]).1.

(** A peer that accepts, one that rejects in the leader's term, and one
    that rejects from term 2. *)
Definition accept (args : AppendEntriesArgs) : option AppendEntriesResults :=
  Some (mkAppendEntriesResults (argsTerm args) true).
Definition reject (args : AppendEntriesArgs) : option AppendEntriesResults :=
  Some (mkAppendEntriesResults (argsTerm args) false).
Definition reject_term2 (args : AppendEntriesArgs)
    : option AppendEntriesResults :=
  Some (mkAppendEntriesResults 2 false).

(** B accepts the two entries, then the next heartbeat. *)
Definition leader2 : leader := (round leader1 "B" accept).1.1.
Definition leader3 : leader := (round leader2 "B" accept).1.1.

(** C accepts as well, twice. *)
Definition leader4 : leader := (round leader3 "C" accept).1.1.
Definition leader5 : leader := (round leader4 "C" accept).1.1.

(** A follower that holds [log3], has committed index 3 and applied 1. *)
Definition follower3 : raft := mkRaft "B" (mkState 2 "A" 3 1) log3 peers3 0.

(** A callback that applies all it is handed. *)
Definition applyAll : Apply :=
  fun commands => (Z.of_nat (length commands), None).

(** [leader4] with C's acknowledgement of index 2 stored, before
    [calcCommitIndex] runs. *)
Definition leader4_stored : leader :=
  mkLeader (node leader4) (nextIndex leader4)
    (Store (matchIndex leader4) "C" 2).

End Scenario.

(** * Properties *)

(** ** Machine integers *)

Lemma uint64_range x : 0 <= uint64 x < 2 ^ 64.
Proof. unfold uint64. apply Z.mod_pos_bound. lia. Qed.

Lemma uint64_small x : 0 <= x < 2 ^ 64 -> uint64 x = x.
Proof. intros H. unfold uint64. by apply Z.mod_small. Qed.

Lemma uint64_le x : 0 <= x -> uint64 x <= x.
Proof. intros H. unfold uint64. apply Z.mod_le; lia. Qed.

Lemma uint64_add_l x y : uint64 (uint64 x + y) = uint64 (x + y).
Proof. unfold uint64. by rewrite Zplus_mod_idemp_l. Qed.

Lemma uint64_add_r x y : uint64 (x + uint64 y) = uint64 (x + y).
Proof. unfold uint64. by rewrite Zplus_mod_idemp_r. Qed.

Lemma int_small x : - 2 ^ 63 <= x < 2 ^ 63 -> int x = x.
Proof. intros H. unfold int. rewrite Z.mod_small; lia. Qed.

(** ** The log *)

Section LogIndices.

Import Log.

Lemma last_err l : (last l).2 = None.
Proof.
  unfold last. destruct (length (queue l) =? 0)%nat; [done|].
  by destruct (queue l !! _).
Qed.

Lemma last_indexed l :
  indexed l -> lastIndex l = uint64 (Z.of_nat (length (queue l))).
Proof.
  intros Hl. unfold lastIndex, last.
  destruct (Nat.eqb_spec (length (queue l)) 0) as [E|E]; simpl.
  - by rewrite E.
  - destruct (lookup_lt_is_Some_2 (queue l) (length (queue l) - 1)) as [e He];
      [lia|].
    rewrite He. simpl. rewrite (Hl _ _ He). f_equal. lia.
Qed.

Lemma append_queue l es :
  append l es =
    (mkLog (queue l ++
            imap (fun i e =>
                    setIndex (uint64 (lastIndex l + uint64 (Z.of_nat i) + 1)) e)
                 es),
     imap (fun i e =>
             setIndex (uint64 (lastIndex l + uint64 (Z.of_nat i) + 1)) e) es,
     None).
Proof.
  unfold append, lastIndex. pose proof (last_err l) as H.
  destruct (last l) as [[start t] err]. simpl in *. by subst err.
Qed.

Lemma indexed_app l (es : list LogEntry) :
  indexed l ->
  (forall (i : nat) e, es !! i = Some e ->
     Index e = uint64 (Z.of_nat (length (queue l) + i) + 1)) ->
  indexed (mkLog (queue l ++ es)).
Proof.
  intros Hl Hes k e. simpl. intros Hk.
  apply lookup_app_Some in Hk as [Hk|[Hge Hk]]; [by apply Hl|].
  rewrite (Hes _ _ Hk). do 2 f_equal. lia.
Qed.

Lemma append_indexed l es : indexed l -> indexed (append l es).1.1.
Proof.
  intros Hl. rewrite append_queue. simpl. apply indexed_app; [done|].
  intros i e. rewrite list_lookup_imap. intros He.
  destruct (es !! i) as [e0|]; [|done]. simpl in He. injection He as <-.
  simpl. rewrite (last_indexed _ Hl).
  rewrite <- Z.add_assoc, uint64_add_l, Z.add_assoc.
  rewrite <- (Z.add_assoc (Z.of_nat _)), (Z.add_comm (uint64 _)), Z.add_assoc.
  rewrite uint64_add_r. f_equal. lia.
Qed.

Lemma popAfter_indexed l i : indexed l -> indexed (popAfter l i).1.
Proof.
  intros Hl. unfold popAfter.
  destruct (i =? len l); [done|]. destruct (len l <? i); [done|].
  intros k e. simpl. intros Hk. apply lookup_take_Some in Hk as [Hk _].
  by apply Hl.
Qed.

Lemma AppendAt_indexed l i es : indexed l -> indexed (AppendAt l i es).1.1.
Proof.
  intros Hl. unfold AppendAt.
  pose proof (popAfter_indexed l i Hl) as Hp.
  destruct (popAfter l i) as [l' [e|]]; simpl in *; [done|].
  by apply append_indexed.
Qed.

Lemma AppendEntry_indexed l e : indexed l -> indexed (AppendEntry l e).1.1.
Proof.
  intros Hl. unfold AppendEntry.
  pose proof (last_err l) as He. pose proof (last_indexed l Hl) as Hi.
  unfold lastIndex in Hi.
  destruct (last l) as [[start t] err]. simpl in *. subst err. simpl.
  apply indexed_app; [done|].
  intros [|i] e'; simpl; [|done]. intros [= <-]. simpl.
  rewrite Hi, uint64_add_l. f_equal. lia.
Qed.

Lemma reachable_indexed l : reachable l -> indexed l.
Proof.
  induction 1 as [|l es _ IH|l i es _ _ IH|l e _ IH].
  - intros k e Hk. by destruct k.
  - by apply append_indexed.
  - by apply AppendAt_indexed.
  - by apply AppendEntry_indexed.
Qed.

Lemma indexed_contiguous l : indexed l -> fits l -> contiguous l.
Proof.
  intros Hl Hf k e Hk. rewrite (Hl _ _ Hk).
  apply lookup_lt_Some in Hk. unfold fits in Hf.
  apply uint64_small. lia.
Qed.

Lemma lastIndex_length l :
  indexed l -> fits l -> lastIndex l = Z.of_nat (length (queue l)).
Proof.
  intros Hl Hf. rewrite (last_indexed _ Hl). unfold fits in Hf.
  apply uint64_small. lia.
Qed.

(** Within the bound of a slice the arithmetic of [append] and [popAfter]
    does not wrap. *)
Lemma append_renumber l es :
  indexed l ->
  Z.of_nat (length (queue l)) + Z.of_nat (length es) < 2 ^ 63 ->
  append l es =
    (mkLog (queue l ++ renumber (Z.of_nat (length (queue l))) es),
     renumber (Z.of_nat (length (queue l))) es, None).
Proof.
  intros Hl Hlen. rewrite append_queue.
  rewrite (lastIndex_length l Hl) by (unfold fits; lia).
  assert (imap (fun i e =>
                  setIndex (uint64 (Z.of_nat (length (queue l)) +
                                    uint64 (Z.of_nat i) + 1)) e) es
          = renumber (Z.of_nat (length (queue l))) es) as ->; [|done].
  apply imap_ext. intros i e He. apply lookup_lt_Some in He.
  rewrite (uint64_small (Z.of_nat i)) by lia.
  by rewrite uint64_small by lia.
Qed.

Lemma popAfter_take l i :
  fits l -> 0 <= i <= Z.of_nat (length (queue l)) ->
  popAfter l i = (mkLog (take (Z.to_nat i) (queue l)), None).
Proof.
  intros Hfit Hi. unfold popAfter, len. unfold fits in Hfit.
  rewrite uint64_small by lia.
  destruct (Z.eqb_spec i (Z.of_nat (length (queue l)))) as [E|E].
  - rewrite take_ge by lia. by destruct l.
  - by destruct (Z.ltb_spec (Z.of_nat (length (queue l))) i); [lia|].
Qed.

Lemma popAfter_beyond l i :
  fits l -> Z.of_nat (length (queue l)) < i ->
  popAfter l i = (l, Some "index out of log's range").
Proof.
  intros Hfit Hi. unfold popAfter, len. unfold fits in Hfit.
  rewrite uint64_small by lia.
  destruct (Z.eqb_spec i (Z.of_nat (length (queue l)))); [lia|].
  by destruct (Z.ltb_spec (Z.of_nat (length (queue l))) i); [|lia].
Qed.

Lemma AppendAt_renumber l i es :
  indexed l ->
  Z.of_nat (length (queue l)) + Z.of_nat (length es) < 2 ^ 63 ->
  0 <= i <= Z.of_nat (length (queue l)) ->
  AppendAt l i es =
    (mkLog (take (Z.to_nat i) (queue l) ++ renumber i es),
     renumber i es, None).
Proof.
  intros Hl Hlen Hi. unfold AppendAt.
  pose proof (popAfter_indexed l i Hl) as Hp.
  rewrite popAfter_take in * by (unfold fits; lia). cbn [fst] in Hp.
  rewrite append_renumber; [|done|]; cbn [queue]; rewrite length_take.
  - by replace (Z.of_nat (Z.to_nat i `min` length (queue l))) with i by lia.
  - lia.
Qed.

(** The indices that [renumber] writes do not depend on those it finds. *)
Lemma renumber_Index start es :
  map Index (renumber start es) =
  map (fun i => start + Z.of_nat i + 1) (seq 0 (length es)).
Proof.
  apply list_eq. intros i. unfold renumber.
  rewrite !list_lookup_fmap, list_lookup_imap.
  destruct (es !! i) as [e|] eqn:E; simpl.
  - rewrite lookup_seq_lt by (by eapply lookup_lt_Some). done.
  - apply lookup_ge_None in E. by rewrite lookup_seq_ge.
Qed.

(** C10.  [Append] and [AppendAt] overwrite the [Index] of the entries they
    are given with the indices that follow the last index, one after the
    other, whatever indices the callers supplied.  So in a log made by any
    sequence of the log's operations entry number [k] (from 0) carries
    index [k + 1]: the indices are 1, 2, ..., n without a gap, and the last
    index the log reports is n. *)
Theorem reachable_contiguous (l : memoryLog) (entries : list LogEntry) :
  reachable l ->
  Z.of_nat (length (queue l)) + Z.of_nat (length entries) < 2 ^ 63 ->
  contiguous l /\
  lastIndex l = Z.of_nat (length (queue l)) /\
  Append l entries =
    (mkLog (queue l ++ renumber (lastIndex l) entries),
     renumber (lastIndex l) entries, None) /\
  map Index (renumber (lastIndex l) entries) =
    map (fun i => lastIndex l + Z.of_nat i + 1) (seq 0 (length entries)) /\
  contiguous (Append l entries).1.1 /\
  forall prevIndex, 0 <= prevIndex <= lastIndex l ->
    AppendAt l prevIndex entries =
      (mkLog (take (Z.to_nat prevIndex) (queue l) ++
              renumber prevIndex entries),
       renumber prevIndex entries, None) /\
    contiguous (AppendAt l prevIndex entries).1.1.
Proof.
  intros Hr Hlen. pose proof (reachable_indexed l Hr) as Hl.
  assert (Hfit : fits l) by (unfold fits; lia).
  rewrite (lastIndex_length l Hl Hfit).
  split; [by apply indexed_contiguous|]. split; [done|].
  split; [by apply append_renumber|]. split; [apply renumber_Index|].
  split.
  - apply indexed_contiguous; [by apply append_indexed|].
    unfold Append. rewrite append_renumber by done.
    unfold fits, renumber. cbn [fst queue].
    rewrite length_app, length_imap. lia.
  - intros prevIndex Hp. split; [by apply AppendAt_renumber|].
    apply indexed_contiguous; [by apply AppendAt_indexed|].
    rewrite AppendAt_renumber by done.
    unfold fits, renumber. cbn [fst queue].
    rewrite length_app, length_imap, length_take. lia.
Qed.

End LogIndices.

Section LogRoundTrip.

Import Log.

(** The loop of [RangeGet] never runs out of its fuel. *)
Lemma RangeGet_loop_fuel fuel l k j acc :
  0 <= k -> Z.max 0 (len l - k) < Z.of_nat fuel ->
  is_Some (RangeGet_loop fuel l k j acc).
Proof.
  revert k acc. induction fuel as [|fuel IH]; intros k acc Hk Hf; [lia|].
  simpl. destruct ((k <=? j) && (k <? len l)) eqn:E; [|done].
  apply andb_prop in E as [_ E]. apply Z.ltb_lt in E.
  destruct (queue l !! Z.to_nat k); [|done].
  pose proof (uint64_range (Z.of_nat (length (queue l)))) as Hr.
  fold (len l) in Hr.
  rewrite uint64_small by lia. apply IH; lia.
Qed.

Lemma RangeGet_total l i j : is_Some (RangeGet l i j).
Proof.
  unfold RangeGet. destruct (j <=? i); [done|].
  destruct (RangeGet_loop_fuel (S (length (queue l))) l
              (uint64 (uint64 (i - 1) + 1)) (uint64 (j - 1)) []) as [es Hes].
  - apply uint64_range.
  - pose proof (uint64_range (uint64 (i - 1) + 1)).
    pose proof (uint64_le (Z.of_nat (length (queue l)))).
    unfold len. lia.
  - rewrite Hes. done.
Qed.

Lemma RangeGet_le l i j : j <= i -> RangeGet l i j = Some ([], None).
Proof. intros H. unfold RangeGet. by destruct (Z.leb_spec j i); [|lia]. Qed.

(** What the loop collects: the entries of the queue from number [k] up to
    number [j], as far as the queue goes. *)
Lemma RangeGet_loop_spec fuel l k j acc :
  fits l -> 0 <= k ->
  Z.max 0 (Z.of_nat (length (queue l)) - k) < Z.of_nat fuel ->
  RangeGet_loop fuel l k j acc =
    Some (acc ++
          take (Z.to_nat (Z.min (j + 1) (Z.of_nat (length (queue l))) - k))
               (drop (Z.to_nat k) (queue l))).
Proof.
  intros Hfit. assert (Hlen : len l = Z.of_nat (length (queue l))).
  { unfold len. apply uint64_small. unfold fits in Hfit. lia. }
  revert k acc. induction fuel as [|fuel IH]; intros k acc Hk Hf; [lia|].
  simpl. rewrite Hlen.
  destruct ((k <=? j) && (k <? Z.of_nat (length (queue l)))) eqn:E.
  - apply andb_prop in E as [E1 E2].
    apply Z.leb_le in E1. apply Z.ltb_lt in E2.
    destruct (lookup_lt_is_Some_2 (queue l) (Z.to_nat k)) as [e He]; [lia|].
    rewrite He. unfold fits in Hfit.
    rewrite uint64_small by lia. rewrite IH by lia.
    f_equal. rewrite <- app_assoc. f_equal. simpl.
    rewrite (drop_S _ _ _ He).
    replace (Z.to_nat (Z.min (j + 1) (Z.of_nat (length (queue l))) - k))
      with (S (Z.to_nat (Z.min (j + 1) (Z.of_nat (length (queue l))) - (k + 1))))
      by lia.
    replace (Z.to_nat (k + 1)) with (S (Z.to_nat k)) by lia.
    done.
  - apply andb_false_iff in E.
    replace (Z.to_nat (Z.min (j + 1) (Z.of_nat (length (queue l))) - k))
      with 0%nat.
    + by rewrite take_0, app_nil_r.
    + destruct E as [E|E]; [apply Z.leb_gt in E|apply Z.ltb_ge in E]; lia.
Qed.

Lemma RangeGet_spec l i j :
  fits l -> 0 <= i < j -> j < 2 ^ 64 ->
  RangeGet l i j =
    Some (take (Z.to_nat (Z.min j (Z.of_nat (length (queue l))) - i))
               (drop (Z.to_nat i) (queue l)), None).
Proof.
  intros Hfit Hij Hj. unfold RangeGet.
  destruct (Z.leb_spec j i); [lia|].
  rewrite uint64_add_l. replace (i - 1 + 1) with i by lia.
  rewrite (uint64_small i) by lia. rewrite (uint64_small (j - 1)) by lia.
  rewrite RangeGet_loop_spec by (done || lia).
  simpl. do 4 f_equal. lia.
Qed.

(** C9.  In a log made by the log's own operations, [AppendAt] at a
    [prevIndex] up to the last index succeeds, and [RangeGet] from
    [prevIndex] to [prevIndex + len(entries)] then returns exactly the
    entries as they were appended: the caller's entries in their order,
    each with its term, type, command and time, and with the index that
    [append] wrote into it.  At a [prevIndex] beyond the last index
    [AppendAt] fails and leaves the log as it was. *)
Theorem AppendAt_RangeGet (l : memoryLog) (prevIndex : Z)
    (entries : list LogEntry) :
  reachable l ->
  Z.of_nat (length (queue l)) + Z.of_nat (length entries) < 2 ^ 63 ->
  0 <= prevIndex < 2 ^ 64 ->
  (prevIndex <= lastIndex l ->
   exists l' entries',
     AppendAt l prevIndex entries = (l', entries', None) /\
     RangeGet l' prevIndex (prevIndex + Z.of_nat (length entries)) =
       Some (entries', None) /\
     entries' = renumber prevIndex entries /\
     map Term entries' = map Term entries /\
     map Cmd entries' = map Cmd entries /\
     queue l' = take (Z.to_nat prevIndex) (queue l) ++ entries') /\
  (lastIndex l < prevIndex ->
   AppendAt l prevIndex entries = (l, entries, Some "index out of log's range")).
Proof.
  intros Hr Hlen Hp. pose proof (reachable_indexed l Hr) as Hl.
  assert (Hfit : fits l) by (unfold fits; lia).
  rewrite (lastIndex_length l Hl Hfit).
  split; intros Hle.
  - exists (mkLog (take (Z.to_nat prevIndex) (queue l) ++
                   renumber prevIndex entries)), (renumber prevIndex entries).
    assert (Hlen' : length (renumber prevIndex entries) = length entries).
    { unfold renumber. by rewrite length_imap. }
    split; [apply AppendAt_renumber; [done|done|lia]|].
    split; [|split; [done|split; [|split; [|done]]]].
    + destruct (decide (length entries = 0%nat)) as [E|E].
      * rewrite RangeGet_le by lia.
        by rewrite (nil_length_inv (renumber prevIndex entries)) by lia.
      * assert (Hdrop :
          drop (Z.to_nat prevIndex)
               (take (Z.to_nat prevIndex) (queue l) ++
                renumber prevIndex entries)
          = renumber prevIndex entries).
        { rewrite drop_app_length'; [done|]. rewrite length_take. lia. }
        rewrite RangeGet_spec; cbn [queue].
        -- rewrite Hdrop, length_app, length_take.
           by rewrite take_ge by lia.
        -- unfold fits. cbn [queue]. rewrite length_app, length_take. lia.
        -- lia.
        -- lia.
    + unfold renumber. apply list_eq. intros i.
      rewrite !list_lookup_fmap, list_lookup_imap.
      by destruct (entries !! i).
    + unfold renumber. apply list_eq. intros i.
      rewrite !list_lookup_fmap, list_lookup_imap.
      by destruct (entries !! i).
  - unfold AppendAt. by rewrite popAfter_beyond.
Qed.

End LogRoundTrip.

Section LogMatch.

Import Log.

(** In a log with contiguous indices the entry with index [i] is entry
    number [i - 1] of the queue. *)
Lemma hasEntry_lookup l i t :
  contiguous l ->
  hasEntry l i t <->
  1 <= i /\ exists e, queue l !! Z.to_nat (i - 1) = Some e /\ Term e = t.
Proof.
  intros Hc. split.
  - intros (e & Hin & Hi & Ht).
    apply list_elem_of_lookup in Hin as [k Hk].
    pose proof (Hc _ _ Hk) as Hik. split; [lia|].
    exists e. split; [|done].
    replace (Z.to_nat (i - 1)) with k by lia. done.
  - intros (Hi & e & Hk & Ht). exists e. split; [|split; [|done]].
    + apply list_elem_of_lookup. eauto.
    + rewrite (Hc _ _ Hk). lia.
Qed.

Lemma Get_spec l i :
  fits l -> 0 <= i < 2 ^ 64 ->
  Get l i =
    (if (1 <=? i) && (i <=? Z.of_nat (length (queue l))) then
       match queue l !! Z.to_nat (i - 1) with
       | Some e => Term e
       | None => 0
       end
     else 0, None).
Proof.
  intros Hfit Hi. unfold Get, len. unfold fits in Hfit.
  rewrite (uint64_small (Z.of_nat _)) by lia.
  destruct (Z.eqb_spec i 0) as [->|Hne]; [done|].
  rewrite (uint64_small (i - 1)) by lia.
  destruct (Z.leb_spec 0 (i - 1)); [|lia].
  destruct (Z.leb_spec 1 i); [|lia]. simpl.
  destruct (Z.ltb_spec (i - 1) (Z.of_nat (length (queue l))));
    destruct (Z.leb_spec i (Z.of_nat (length (queue l)))); try lia; [|done].
  by destruct (queue l !! Z.to_nat (i - 1)).
Qed.

(** C6, as the code has it.  [Match] compares [term] with what [Get]
    reports, and [Get] reports term 0 where the log has no entry: so
    [Match(index, term)] is true exactly when an entry with that index and
    term exists, or when [term] is 0 and no entry has that index (index 0
    is one such index).  It never returns an error. *)
Theorem Match_spec (l : memoryLog) (index term : Z) :
  reachable l -> fits l -> 0 <= index < 2 ^ 64 ->
  (Match l index term).2 = None /\
  ((Match l index term).1 = true <->
   hasEntry l index term \/
   (term = 0 /\ ~ exists t, hasEntry l index t)).
Proof.
  intros Hr Hfit Hi.
  pose proof (indexed_contiguous l (reachable_indexed l Hr) Hfit) as Hc.
  unfold Match. rewrite (Get_spec l index Hfit Hi). simpl.
  split; [done|]. rewrite Z.eqb_eq.
  destruct ((1 <=? index) && (index <=? Z.of_nat (length (queue l)))) eqn:E.
  - apply andb_prop in E as [E1 E2].
    apply Z.leb_le in E1. apply Z.leb_le in E2.
    destruct (lookup_lt_is_Some_2 (queue l) (Z.to_nat (index - 1)))
      as [e He]; [lia|].
    rewrite He. split.
    + intros ->. left. apply hasEntry_lookup; eauto.
    + intros [H|[_ H]].
      * apply hasEntry_lookup in H as (_ & e' & He' & Ht); [|done].
        congruence.
      * exfalso. apply H. exists (Term e). apply hasEntry_lookup; eauto.
  - assert (Hno : ~ exists t, hasEntry l index t).
    { intros [t H]. apply hasEntry_lookup in H as (H1 & e & He & _); [|done].
      apply lookup_lt_Some in He.
      apply andb_false_iff in E as [E|E];
        [apply Z.leb_gt in E|apply Z.leb_gt in E]; lia. }
    split.
    + intros ->. by right.
    + intros [H|[H _]]; [|done]. exfalso. apply Hno. eauto.
Qed.

End LogMatch.

(** Witnesses of the theorems on the log, at [log3]. *)

Lemma reachable_log3 : Log.reachable Scenario.log3.
Proof. apply Log.reachable_Append, Log.reachable_new. Qed.

Lemma reachable_contiguous_witness :
  Log.reachable Scenario.log3 /\
  Log.contiguous Scenario.log3 /\
  Log.lastIndex Scenario.log3 = 3.
Proof.
  split; [apply reachable_log3|].
  destruct (reachable_contiguous Scenario.log3 [Scenario.entry 3 "w"])
    as (H1 & H2 & _).
  - apply reachable_log3.
  - vm_compute; reflexivity.
  - split; [exact H1|exact H2].
Defined.

Lemma AppendAt_RangeGet_witness :
  1 <= Log.lastIndex Scenario.log3 /\
  exists l' entries',
    Log.AppendAt Scenario.log3 1 [Scenario.entry 3 "w"; Scenario.entry 3 "v"]
      = (l', entries', None) /\
    Log.RangeGet l' 1 (1 + Z.of_nat 2) = Some (entries', None) /\
    entries' =
      Log.renumber 1 [Scenario.entry 3 "w"; Scenario.entry 3 "v"] /\
    map Log.Term entries' = [3; 3] /\
    map Log.Cmd entries' = ["w"; "v"] /\
    Log.queue l' = take 1 (Log.queue Scenario.log3) ++ entries'.
Proof.
  assert (H : 1 <= Log.lastIndex Scenario.log3) by (vm_compute; discriminate).
  split; [exact H|].
  apply (AppendAt_RangeGet Scenario.log3 1
           [Scenario.entry 3 "w"; Scenario.entry 3 "v"]).
  - apply reachable_log3.
  - vm_compute; reflexivity.
  - lia.
  - exact H.
Defined.

Lemma Match_spec_witness :
  (Log.Match Scenario.log3 3 2).2 = None /\
  ((Log.Match Scenario.log3 3 2).1 = true <->
   Log.hasEntry Scenario.log3 3 2 \/
   (2 = 0 /\ ~ exists t, Log.hasEntry Scenario.log3 3 t)).
Proof.
  apply (Match_spec Scenario.log3 3 2).
  - apply reachable_log3.
  - vm_compute; reflexivity.
  - lia.
Defined.

(** C6 as it is worded fails: on the empty log [Match(1, 0)] is true,
    though the index is not 0 and the log has no entry with index 1. *)
Lemma Match_absent_index_cex :
  Log.Match (Log.mkLog []) 1 0 = (true, None) /\
  ~ (1 = 0 /\ 0 = 0 \/ Log.hasEntry (Log.mkLog []) 1 0).
Proof.
  split; [reflexivity|].
  intros [[H _]|(e & He & _)]; [discriminate|].
  by apply elem_of_nil in He.
Qed.

(** ** The node *)

Section Node.

Import Raft.

Lemma Last_err r : (Last r).2 = None.
Proof.
  unfold Last, Log.Last. pose proof (last_err (log r)) as H.
  by destruct (Log.last (log r)) as [[i t] err].
Qed.

(** C2, as the code has it.  When the arguments of an RPC carry a term
    above [currentTerm], [reactToRPCArgs] reports a conversion, hands back a
    follower over the node, and the node's [currentTerm] is that term; the
    log, [commitIndex] and [lastApplied] are as before. *)
Theorem reactToRPCArgs_higher_term (r : raft) (args : rpcArgs) :
  getTerm args > GetCurrentTerm r ->
  exists r',
    reactToRPCArgs r args = (r', Some (follower r'), true) /\
    GetCurrentTerm r' = getTerm args /\
    GetCommitIndex r' = GetCommitIndex r /\
    GetLastApplied r' = GetLastApplied r /\
    log r' = log r.
Proof.
  intros H. unfold reactToRPCArgs.
  destruct (Z.gtb_spec (getTerm args) (GetCurrentTerm r)); [|lia].
  simpl. eexists. split; [reflexivity|]. done.
Qed.

Lemma reactToRPCArgs_higher_term_witness :
  getTerm Scenario.call_term2 > GetCurrentTerm Scenario.voter /\
  exists r',
    reactToRPCArgs Scenario.voter Scenario.call_term2
      = (r', Some (follower r'), true) /\
    GetCurrentTerm r' = getTerm Scenario.call_term2 /\
    GetCommitIndex r' = GetCommitIndex Scenario.voter /\
    GetLastApplied r' = GetLastApplied Scenario.voter /\
    log r' = log Scenario.voter.
Proof.
  assert (H : getTerm Scenario.call_term2 > GetCurrentTerm Scenario.voter)
    by reflexivity.
  split; [exact H|].
  apply (reactToRPCArgs_higher_term Scenario.voter Scenario.call_term2 H).
Defined.

(** C2 as it is worded fails: node C, in term 1 with its vote given to A,
    sees term 2 from B; it converts, and its [votedFor] is still A. *)
Lemma reactToRPCArgs_votedFor_cex :
  getTerm Scenario.call_term2 > GetCurrentTerm Scenario.voter /\
  GetVotedFor (reactToRPCArgs Scenario.voter Scenario.call_term2).1.1 = "A" /\
  isNil (GetVotedFor
           (reactToRPCArgs Scenario.voter Scenario.call_term2).1.1) = false.
Proof. split; [reflexivity|]. split; reflexivity. Qed.




End Node.

(** ** The leader *)

Section LeaderCommitIndex.

Import Raft Leader.

(** What [calcCommitIndex] collects before it sorts: the values of
    [matchIndex], in the order of the iteration, and [commitIndex]. *)
Lemma Range_pairs_collect (kvs : list (RaftId * Z)) (acc : list Z) :
  Range_pairs kvs (fun _ index acc => (acc ++ [index], true)) acc
  = acc ++ kvs.*2.
Proof.
  revert acc. induction kvs as [|[id index] kvs IH]; intros acc; simpl.
  - by rewrite app_nil_r.
  - rewrite IH. by rewrite <- app_assoc.
Qed.

Lemma collected_values (l : leader) :
  collected l = (map_to_list (matchIndex l)).*2 ++ [GetCommitIndex (node l)].
Proof. unfold collected, Range. by rewrite Range_pairs_collect. Qed.

(** C5.  [calcCommitIndex] leaves the leader as it is, or else the last
    entry of the log has the current term, the candidate is above
    [commitIndex], the log reports the current term for the candidate, and
    [commitIndex] becomes the candidate while the log and the term stay: so
    the entry at the new [commitIndex] has the leader's current term. *)
Theorem calcCommitIndex_guard (l : leader) :
  (calcCommitIndex l).1 = l \/
  ((Last (node l)).1.2 = GetCurrentTerm (node l) /\
   GetCommitIndex (node l) < nextCommitIndex l /\
   (Get (node l) (nextCommitIndex l)).1 = GetCurrentTerm (node l) /\
   GetCommitIndex (node (calcCommitIndex l).1) = nextCommitIndex l /\
   log (node (calcCommitIndex l).1) = log (node l) /\
   GetCurrentTerm (node (calcCommitIndex l).1) = GetCurrentTerm (node l) /\
   (Get (node (calcCommitIndex l).1)
        (GetCommitIndex (node (calcCommitIndex l).1))).1
     = GetCurrentTerm (node (calcCommitIndex l).1)).
Proof.
  unfold calcCommitIndex.
  destruct (Last (node l)) as [[lastLogIndex lastLogTerm] e0] eqn:EL.
  destruct (Z.eqb_spec lastLogTerm (GetCurrentTerm (node l))) as [Ht|Ht];
    simpl; [|by left].
  destruct (Z.leb_spec (nextCommitIndex l) (GetCommitIndex (node l)))
    as [Hn|Hn]; [by left|].
  destruct (Get (node l) (nextCommitIndex l)) as [entryTerm err] eqn:EG.
  destruct err as [e|]; [by left|].
  destruct (Z.eqb_spec entryTerm (GetCurrentTerm (node l))) as [He|He];
    simpl; [|by left].
  right. repeat split; try done.
  unfold Get in *. cbn. cbn in EG. by rewrite EG.
Qed.

(** The guard lets an entry of the current term through: once C has
    answered as B did, [commitIndex] goes from 0 to 2. *)
Example calcCommitIndex_advances :
  GetCommitIndex (node Scenario.leader4) = 0 /\
  GetCommitIndex (node Scenario.leader5) = 2 /\
  (Get (node Scenario.leader5) 2).1 = GetCurrentTerm (node Scenario.leader5).
Proof. repeat split; vm_compute; reflexivity. Qed.

(** C1, at a leader the code reaches.  Leader A of term 1 in a cluster of
    A, B and C holds two entries, the last of term 1; B has acknowledged
    both: [matchIndex] is 0 for A, 2 for B, 0 for C, and [commitIndex] is 0.
    The code sorts these values with [commitIndex], 0, 0, 0 and 2, and
    takes 0; with the leader's last index 2 in the place of [commitIndex],
    as the specification has it, the median is 2.  [commitIndex] stays 0. *)
Theorem nextCommitIndex_commitIndex_appended :
  (Last (node Scenario.leader3)).1.1 = 2 /\
  (Last (node Scenario.leader3)).1.2 = GetCurrentTerm (node Scenario.leader3) /\
  GetCommitIndex (node Scenario.leader3) = 0 /\
  matchIndex Scenario.leader3 !! "A" = Some 0 /\
  matchIndex Scenario.leader3 !! "B" = Some 2 /\
  matchIndex Scenario.leader3 !! "C" = Some 0 /\
  sort_Ints (collected Scenario.leader3) = [0; 0; 0; 2] /\
  nextCommitIndex Scenario.leader3 = 0 /\
  spec_candidate Scenario.leader3 = 2 /\
  GetCommitIndex (node (calcCommitIndex Scenario.leader3).1) = 0.
Proof. repeat split; vm_compute; reflexivity. Qed.

End LeaderCommitIndex.

Section LeaderReplication.

Import Raft Leader.



(** C4, at the leader of term 1 with an empty log.  [Commit] of the one
    command "x" appends two entries: a zero entry of term 0 with an empty
    command at index 1, and the entry of term 1 for "x" at index 2. *)
Theorem Commit_appends_zero_entries :
  GetCurrentTerm (node Scenario.leader0) = 1 /\
  Log.queue (log (node Scenario.leader0)) = [] /\
  Commit Scenario.leader0 ["x"] = (Scenario.leader1, None) /\
  Log.queue (log (node Scenario.leader1)) =
    [Log.mkLogEntry 1 0 Log.logEntryTypeCommand "" 0;
     Log.mkLogEntry 2 1 Log.logEntryTypeCommand "x" 0].
Proof. repeat split; vm_compute; reflexivity. Qed.

(** C3, at that leader after the [Commit].  The round for B sends
    [prevLogIndex] 0 with the two entries; on B's success the code stores
    [matchIndex] 0 for B, the [prevLogIndex], and [nextIndex] 3, while the
    specification has [matchIndex] 0 + 2 and [nextIndex] one above [matchIndex]. *)
Theorem round_success_matchIndex :
  Load (nextIndex Scenario.leader1) "B" = (1, true) /\
  (fun a => (PrevLogIndex a.2, length (Entries a.2)))
    <$> roundArgs Scenario.leader1 "B" = Some (0, 2%nat) /\
  (round Scenario.leader1 "B" Scenario.accept).1.2 = true /\
  Load (matchIndex (round Scenario.leader1 "B" Scenario.accept).1.1) "B"
    = (0, true) /\
  Load (nextIndex (round Scenario.leader1 "B" Scenario.accept).1.1) "B"
    = (3, true).
Proof. repeat split; vm_compute; reflexivity. Qed.

(** With no entries to send the same branch does store
    [prevLogIndex + 0] and leaves [nextIndex] one above it. *)
Example round_success_heartbeat :
  (fun a => (PrevLogIndex a.2, length (Entries a.2)))
    <$> roundArgs Scenario.leader2 "B" = Some (2, 0%nat) /\
  Load (matchIndex Scenario.leader3) "B" = (2, true) /\
  Load (nextIndex Scenario.leader3) "B" = (3, true).
Proof. repeat split; vm_compute; reflexivity. Qed.

(** C7, at leaders the code reaches.  For the new leader [nextIndex] is 1
    and [matchIndex] 0 for B; a rejection by B, in the leader's term or
    from term 2, takes [nextIndex] to 0, below 1 and not above
    [matchIndex], and the loop goes on.  After B's two acknowledgements
    [matchIndex] is 2 and [nextIndex] 3; a rejection in the leader's term
    takes [nextIndex] to 2, equal to [matchIndex]. *)
Theorem round_failure_no_floor :
  Load (nextIndex Scenario.leader0) "B" = (1, true) /\
  Load (matchIndex Scenario.leader0) "B" = (0, true) /\
  Load (nextIndex (round Scenario.leader0 "B" Scenario.reject).1.1) "B"
    = (0, true) /\
  Load (nextIndex (round Scenario.leader0 "B" Scenario.reject_term2).1.1) "B"
    = (0, true) /\
  Load (matchIndex (round Scenario.leader0 "B" Scenario.reject).1.1) "B"
    = (0, true) /\
  (round Scenario.leader0 "B" Scenario.reject).2 = true /\
  Load (nextIndex (round Scenario.leader3 "B" Scenario.reject).1.1) "B"
    = (2, true) /\
  Load (matchIndex (round Scenario.leader3 "B" Scenario.reject).1.1) "B"
    = (2, true).
Proof. repeat split; vm_compute; reflexivity. Qed.

End LeaderReplication.

(** * Further properties *)

(** ** The log: reading *)

Section LogReading.

Import Log.

Lemma lastTerm_lookup l e :
  queue l !! (length (queue l) - 1)%nat = Some e -> lastTerm l = Term e.
Proof.
  intros He. unfold lastTerm, last.
  destruct (Nat.eqb_spec (length (queue l)) 0) as [E|E].
  - apply lookup_lt_Some in He. lia.
  - by rewrite He.
Qed.

Lemma lastTerm_nil l : queue l = [] -> lastTerm l = 0.
Proof. intros E. unfold lastTerm, last. by rewrite E. Qed.

(** X1.  What [Last] reports is what [Get] and [Match] find: in a log made
    by the log's operations [Get] at the last index returns the last term,
    [Match] of the last index and the last term is true (on the empty log
    this is [Match(0, 0)]), and [Get] one past the last index returns 0. *)
Theorem Last_Get_Match (l : memoryLog) :
  reachable l -> fits l ->
  Last l = (Z.of_nat (length (queue l)), lastTerm l, None) /\
  Get l (lastIndex l) = (lastTerm l, None) /\
  Match l (lastIndex l) (lastTerm l) = (true, None) /\
  Get l (lastIndex l + 1) = (0, None).
Proof.
  intros Hr Hfit. pose proof (reachable_indexed l Hr) as Hl.
  pose proof (lastIndex_length l Hl Hfit) as Hlast.
  assert (HG : Get l (lastIndex l) = (lastTerm l, None)).
  { rewrite Hlast. unfold fits in Hfit. rewrite Get_spec by (done || lia).
    destruct (Z.leb_spec 1 (Z.of_nat (length (queue l)))) as [H1|H1].
    - rewrite Z.leb_refl. simpl.
      destruct (lookup_lt_is_Some_2 (queue l) (length (queue l) - 1))
        as [e He]; [lia|].
      replace (Z.to_nat (Z.of_nat (length (queue l)) - 1))
        with (length (queue l) - 1)%nat by lia.
      rewrite He. by rewrite (lastTerm_lookup l e He).
    - simpl. rewrite lastTerm_nil; [done|].
      apply nil_length_inv. lia. }
  split; [|split; [done|split]].
  - unfold Last. pose proof (last_err l) as He. unfold lastIndex in Hlast.
    unfold lastTerm. destruct (last l) as [[i t] err]. simpl in *.
    by subst.
  - unfold Match. rewrite HG. by rewrite Z.eqb_refl.
  - rewrite Hlast. unfold fits in Hfit. rewrite Get_spec by (done || lia).
    destruct (Z.leb_spec (Z.of_nat (length (queue l)) + 1)
                (Z.of_nat (length (queue l)))); [lia|].
    by rewrite andb_false_r.
Qed.

(** X2.  [Get] by index.  In a log made by the log's operations every
    index from 1 to the last index has an entry, [Get] returns the term of
    the entry with the index it is given, and it returns 0 for index 0 and
    for an index beyond the last; it returns no error. *)
Theorem Get_entry (l : memoryLog) (i : Z) :
  reachable l -> fits l -> 0 <= i < 2 ^ 64 ->
  (forall t, hasEntry l i t -> Get l i = (t, None)) /\
  (1 <= i <= lastIndex l -> exists t, hasEntry l i t) /\
  (i = 0 \/ lastIndex l < i -> Get l i = (0, None)).
Proof.
  intros Hr Hfit Hi. pose proof (reachable_indexed l Hr) as Hl.
  pose proof (indexed_contiguous l Hl Hfit) as Hc.
  rewrite (lastIndex_length l Hl Hfit).
  rewrite (Get_spec l i Hfit Hi). split; [|split].
  - intros t H. apply hasEntry_lookup in H as (H1 & e & He & Ht); [|done].
    pose proof (lookup_lt_Some _ _ _ He).
    destruct (Z.leb_spec 1 i); [|lia].
    destruct (Z.leb_spec i (Z.of_nat (length (queue l)))); [|lia].
    simpl. rewrite He. by subst.
  - intros Hin.
    destruct (lookup_lt_is_Some_2 (queue l) (Z.to_nat (i - 1))) as [e He];
      [lia|].
    exists (Term e). apply hasEntry_lookup; [done|]. split; [lia|]. eauto.
  - intros [->|H]; [done|].
    destruct (Z.leb_spec i (Z.of_nat (length (queue l)))); [lia|].
    by rewrite andb_false_r.
Qed.

(** X3.  [RangeGet(i, j)] returns the entries with the indices above [i]
    up to [j], in their order, and stops at the end of the log: asked
    beyond the last index it returns the entries that are there, and it
    returns none when [j <= i] or when [i] is the last index or beyond. *)
Theorem RangeGet_entries (l : memoryLog) (i j : Z) :
  reachable l -> fits l -> 0 <= i < 2 ^ 64 -> 0 <= j < 2 ^ 64 ->
  exists entries,
    RangeGet l i j = Some (entries, None) /\
    entries = take (Z.to_nat (Z.min j (lastIndex l) - i))
                   (drop (Z.to_nat i) (queue l)) /\
    map Index entries =
      map (fun k => i + Z.of_nat k + 1)
          (seq 0 (Z.to_nat (Z.min j (lastIndex l) - i))) /\
    forall e, e ∈ entries <-> e ∈ queue l /\ i < Index e <= j.
Proof.
  intros Hr Hfit Hi Hj. pose proof (reachable_indexed l Hr) as Hl.
  pose proof (indexed_contiguous l Hl Hfit) as Hc.
  rewrite (lastIndex_length l Hl Hfit).
  set (n := Z.to_nat (Z.min j (Z.of_nat (length (queue l))) - i)).
  exists (take n (drop (Z.to_nat i) (queue l))).
  assert (Hlook : forall k e,
            take n (drop (Z.to_nat i) (queue l)) !! k = Some e <->
            (k < n)%nat /\ queue l !! (Z.to_nat i + k)%nat = Some e).
  { intros k e. rewrite lookup_take_Some, lookup_drop. tauto. }
  split; [|split; [done|split]].
  - destruct (Z.leb_spec j i) as [Hle|Hlt].
    + rewrite RangeGet_le by done. subst n.
      replace (Z.to_nat _) with 0%nat by lia. done.
    + by rewrite RangeGet_spec by (done || lia).
  - apply list_eq. intros k. rewrite !list_lookup_fmap.
    destruct (decide (k < n)%nat) as [Hk|Hk].
    + rewrite lookup_seq_lt by done. simpl.
      destruct (lookup_lt_is_Some_2 (queue l) (Z.to_nat i + k)) as [e He];
        [lia|].
      rewrite (proj2 (Hlook k e)) by done. simpl.
      rewrite (Hc _ _ He). f_equal. lia.
    + rewrite lookup_seq_ge by lia.
      destruct (take n (drop (Z.to_nat i) (queue l)) !! k) as [e|] eqn:E;
        [|done].
      apply Hlook in E. lia.
  - intros e. split.
    + intros He. apply list_elem_of_lookup in He as [k Hk].
      apply Hlook in Hk as [Hk He]. split.
      * apply list_elem_of_lookup. eauto.
      * rewrite (Hc _ _ He). lia.
    + intros [He Hr']. apply list_elem_of_lookup in He as [k Hk].
      pose proof (Hc _ _ Hk) as Hik. pose proof (lookup_lt_Some _ _ _ Hk).
      apply list_elem_of_lookup. exists (k - Z.to_nat i)%nat.
      apply Hlook. split; [lia|].
      by replace (Z.to_nat i + (k - Z.to_nat i))%nat with k by lia.
Qed.

End LogReading.

(** ** The log: writing *)

Section LogWriting.

Import Log.

Lemma length_renumber start es : length (renumber start es) = length es.
Proof. unfold renumber. apply length_imap. Qed.

Lemma renumber_lookup start es k :
  renumber start es !! k = setIndex (start + Z.of_nat k + 1) <$> es !! k.
Proof. unfold renumber. by rewrite list_lookup_imap. Qed.

Lemma renumber_renumber start start' es :
  renumber start (renumber start' es) = renumber start es.
Proof.
  apply list_eq. intros k. rewrite !renumber_lookup.
  by destruct (es !! k).
Qed.

(** [Get] reads entry number [i - 1] of the queue. *)
Lemma Get_lookup l i e :
  fits l -> 1 <= i -> queue l !! Z.to_nat (i - 1) = Some e ->
  Get l i = (Term e, None).
Proof.
  intros Hfit Hi He. pose proof (lookup_lt_Some _ _ _ He) as Hlt.
  unfold fits in Hfit. rewrite Get_spec by (done || lia).
  destruct (Z.leb_spec 1 i); [|lia].
  destruct (Z.leb_spec i (Z.of_nat (length (queue l)))); [|lia].
  simpl. by rewrite He.
Qed.

(** Two logs that fit and agree on their first [n] entries give [Get] the
    same answers up to index [n]. *)
Lemma Get_prefix l l' n i :
  fits l -> fits l' -> 0 <= i <= Z.of_nat n ->
  (n <= length (queue l))%nat -> (n <= length (queue l'))%nat ->
  take n (queue l') = take n (queue l) ->
  Get l' i = Get l i.
Proof.
  intros Hfit Hfit' Hi Hn Hn' Htake.
  unfold fits in Hfit, Hfit'.
  rewrite !Get_spec by (done || lia).
  destruct (Z.leb_spec 1 i); [|done].
  destruct (Z.leb_spec i (Z.of_nat (length (queue l)))); [|lia].
  destruct (Z.leb_spec i (Z.of_nat (length (queue l')))); [|lia].
  simpl.
  assert (queue l' !! Z.to_nat (i - 1) = queue l !! Z.to_nat (i - 1)) as ->;
    [|done].
  rewrite <- (lookup_take_lt (queue l') n) by lia.
  rewrite <- (lookup_take_lt (queue l) n) by lia.
  by rewrite Htake.
Qed.

(** X4.  [AppendEntry] is [Append] of the one entry; it returns no error.
    In a log made by the log's operations it returns the index after the
    last one, the log then reports that index as its last, and [Get] there
    returns the term of the entry. *)
Theorem AppendEntry_Append (l : memoryLog) (entry : LogEntry) :
  reachable l -> Z.of_nat (length (queue l)) + 1 < 2 ^ 63 ->
  (AppendEntry l entry).1.1 = (Append l [entry]).1.1 /\
  (AppendEntry l entry).2 = None /\
  (AppendEntry l entry).1.2 = lastIndex l + 1 /\
  lastIndex (AppendEntry l entry).1.1 = lastIndex l + 1 /\
  Get (AppendEntry l entry).1.1 (lastIndex l + 1) = (Term entry, None).
Proof.
  intros Hr Hlen. pose proof (reachable_indexed l Hr) as Hl.
  assert (Hfit : fits l) by (unfold fits; lia).
  pose proof (lastIndex_length l Hl Hfit) as Hlast.
  assert (HA : AppendEntry l entry =
               (mkLog (queue l ++ [setIndex (lastIndex l + 1) entry]),
                lastIndex l + 1, None)).
  { unfold AppendEntry. pose proof (last_err l) as He.
    unfold lastIndex in *. destruct (last l) as [[start t] err].
    simpl in *. subst err. rewrite uint64_small by lia. done. }
  assert (HB : (Append l [entry]).1.1 =
               mkLog (queue l ++ [setIndex (lastIndex l + 1) entry])).
  { unfold Append. rewrite append_renumber by (done || simpl; lia).
    unfold renumber. simpl. rewrite Hlast.
    by replace (Z.of_nat (length (queue l)) + Z.of_nat 0 + 1)
      with (Z.of_nat (length (queue l)) + 1) by lia. }
  rewrite HA, HB. cbn [fst snd].
  assert (Hfit' : fits (mkLog (queue l ++ [setIndex (lastIndex l + 1) entry]))).
  { unfold fits. cbn [queue]. rewrite length_app. simpl. lia. }
  assert (Hl' : indexed (mkLog (queue l ++ [setIndex (lastIndex l + 1) entry]))).
  { rewrite <- HB. by apply append_indexed. }
  split; [done|]. split; [done|]. split; [done|]. split.
  - rewrite (lastIndex_length _ Hl' Hfit'). cbn [queue].
    rewrite length_app. simpl. lia.
  - rewrite (Get_lookup _ _ (setIndex (lastIndex l + 1) entry)); try done.
    + lia.
    + cbn [queue]. rewrite Hlast.
      replace (Z.to_nat (Z.of_nat (length (queue l)) + 1 - 1))
        with (length (queue l) + 0)%nat by lia.
      by rewrite lookup_app_r, Nat.add_comm, Nat.add_sub by lia.
Qed.

(** X5.  [Append] only adds.  In a log made by the log's operations the
    last index grows by the number of the entries, [Get] answers as before
    for every index up to the old last index, and at the index of each new
    entry it returns that entry's term. *)
Theorem Append_preserves (l : memoryLog) (entries : list LogEntry) :
  reachable l ->
  Z.of_nat (length (queue l)) + Z.of_nat (length entries) < 2 ^ 63 ->
  (Append l entries).2 = None /\
  lastIndex (Append l entries).1.1
    = lastIndex l + Z.of_nat (length entries) /\
  (forall i, 0 <= i <= lastIndex l ->
     Get (Append l entries).1.1 i = Get l i) /\
  (forall (k : nat) e, entries !! k = Some e ->
     Get (Append l entries).1.1 (lastIndex l + Z.of_nat k + 1)
       = (Term e, None)).
Proof.
  intros Hr Hlen. pose proof (reachable_indexed l Hr) as Hl.
  assert (Hfit : fits l) by (unfold fits; lia).
  pose proof (lastIndex_length l Hl Hfit) as Hlast.
  pose proof (append_indexed l entries Hl) as Hl'.
  unfold Append in *. rewrite append_renumber in * by done.
  cbn [fst snd] in *. rewrite Hlast.
  set (l' := mkLog (queue l ++ renumber (Z.of_nat (length (queue l))) entries))
    in *.
  assert (Hlen' : length (queue l') = (length (queue l) + length entries)%nat).
  { unfold l'. cbn [queue]. by rewrite length_app, length_renumber. }
  assert (Hfit' : fits l') by (unfold fits; lia).
  split; [done|]. split; [|split].
  - rewrite (lastIndex_length _ Hl' Hfit'). lia.
  - intros i Hi. apply (Get_prefix l l' (length (queue l))); try done; try lia.
    unfold l'. cbn [queue]. by rewrite take_app_length, take_ge by lia.
  - intros k e He. pose proof (lookup_lt_Some _ _ _ He).
    rewrite (Get_lookup l' _
               (setIndex (Z.of_nat (length (queue l)) + Z.of_nat k + 1) e));
      [done|done|lia|].
    unfold l'. cbn [queue].
    replace (Z.to_nat (Z.of_nat (length (queue l)) + Z.of_nat k + 1 - 1))
      with (length (queue l) + k)%nat by lia.
    rewrite lookup_app_r by lia.
    replace (length (queue l) + k - length (queue l))%nat with k by lia.
    by rewrite renumber_lookup, He.
Qed.

(** X6.  [AppendAt] cuts the log at [prevIndex] before it appends, also
    when it is given no entries.  At a [prevIndex] up to the last index of
    a log made by the log's operations: the last index becomes [prevIndex]
    plus the number of the entries, [Get] answers as before up to
    [prevIndex], returns the terms of the new entries at the indices that
    follow, and returns 0 beyond them, whatever the log held there. *)
Theorem AppendAt_truncates (l : memoryLog) (prevIndex : Z)
    (entries : list LogEntry) :
  reachable l ->
  Z.of_nat (length (queue l)) + Z.of_nat (length entries) < 2 ^ 63 ->
  0 <= prevIndex <= lastIndex l ->
  lastIndex (AppendAt l prevIndex entries).1.1
    = prevIndex + Z.of_nat (length entries) /\
  (forall i, 0 <= i <= prevIndex ->
     Get (AppendAt l prevIndex entries).1.1 i = Get l i) /\
  (forall (k : nat) e, entries !! k = Some e ->
     Get (AppendAt l prevIndex entries).1.1 (prevIndex + Z.of_nat k + 1)
       = (Term e, None)) /\
  (forall i, prevIndex + Z.of_nat (length entries) < i < 2 ^ 64 ->
     Get (AppendAt l prevIndex entries).1.1 i = (0, None)).
Proof.
  intros Hr Hlen Hp. pose proof (reachable_indexed l Hr) as Hl.
  assert (Hfit : fits l) by (unfold fits; lia).
  rewrite (lastIndex_length l Hl Hfit) in Hp.
  pose proof (AppendAt_indexed l prevIndex entries Hl) as Hl'.
  rewrite AppendAt_renumber in * by done. cbn [fst] in *.
  set (l' := mkLog (take (Z.to_nat prevIndex) (queue l) ++
                    renumber prevIndex entries)) in *.
  assert (Hlen' : Z.of_nat (length (queue l'))
                  = prevIndex + Z.of_nat (length entries)).
  { unfold l'. cbn [queue].
    rewrite length_app, length_renumber, length_take. lia. }
  assert (Hfit' : fits l') by (unfold fits; lia).
  split; [|split; [|split]].
  - by rewrite (lastIndex_length _ Hl' Hfit').
  - intros i Hi.
    apply (Get_prefix l l' (Z.to_nat prevIndex)); try done; try lia.
    unfold l'. cbn [queue].
    rewrite take_app_length'; [done|rewrite length_take; lia].
  - intros k e He. pose proof (lookup_lt_Some _ _ _ He).
    rewrite (Get_lookup l' _ (setIndex (prevIndex + Z.of_nat k + 1) e));
      [done|done|lia|].
    unfold l'. cbn [queue].
    replace (Z.to_nat (prevIndex + Z.of_nat k + 1 - 1))
      with (length (take (Z.to_nat prevIndex) (queue l)) + k)%nat
      by (rewrite length_take; lia).
    rewrite lookup_app_r by lia.
    replace (length (take (Z.to_nat prevIndex) (queue l)) + k -
             length (take (Z.to_nat prevIndex) (queue l)))%nat with k by lia.
    by rewrite renumber_lookup, He.
  - intros i Hi. rewrite Get_spec by (done || lia).
    destruct (Z.leb_spec i (Z.of_nat (length (queue l')))); [lia|].
    by rewrite andb_false_r.
Qed.

(** X7.  [AppendAt] can be repeated: the same call on its own result
    changes nothing, whether it is given the entries as the first call left
    them in the caller's slice or the entries as they were before. *)
Theorem AppendAt_idempotent (l : memoryLog) (prevIndex : Z)
    (entries : list LogEntry) :
  reachable l ->
  Z.of_nat (length (queue l)) + 2 * Z.of_nat (length entries) < 2 ^ 63 ->
  0 <= prevIndex <= lastIndex l ->
  AppendAt (AppendAt l prevIndex entries).1.1 prevIndex
           (AppendAt l prevIndex entries).1.2
    = AppendAt l prevIndex entries /\
  AppendAt (AppendAt l prevIndex entries).1.1 prevIndex entries
    = AppendAt l prevIndex entries.
Proof.
  intros Hr Hlen Hp. pose proof (reachable_indexed l Hr) as Hl.
  assert (Hfit : fits l) by (unfold fits; lia).
  rewrite (lastIndex_length l Hl Hfit) in Hp.
  pose proof (AppendAt_indexed l prevIndex entries Hl) as Hl'.
  rewrite (AppendAt_renumber l) in * by (done || lia). cbn [fst snd] in *.
  assert (Htake : take (Z.to_nat prevIndex)
                    (take (Z.to_nat prevIndex) (queue l) ++
                     renumber prevIndex entries)
                  = take (Z.to_nat prevIndex) (queue l)).
  { rewrite take_app_length'; [done|]. rewrite length_take. lia. }
  split.
  - rewrite AppendAt_renumber; cbn [queue]; try done.
    + by rewrite Htake, renumber_renumber.
    + rewrite length_app, !length_renumber, length_take. lia.
    + rewrite length_app, length_renumber, length_take. lia.
  - rewrite AppendAt_renumber; cbn [queue]; try done.
    + by rewrite Htake.
    + rewrite length_app, !length_renumber, length_take. lia.
    + rewrite length_app, length_renumber, length_take. lia.
Qed.

(** X8.  [AppendAt] at the last index is [Append]. *)
Theorem AppendAt_lastIndex (l : memoryLog) (entries : list LogEntry) :
  reachable l ->
  Z.of_nat (length (queue l)) + Z.of_nat (length entries) < 2 ^ 63 ->
  AppendAt l (lastIndex l) entries = Append l entries.
Proof.
  intros Hr Hlen. pose proof (reachable_indexed l Hr) as Hl.
  assert (Hfit : fits l) by (unfold fits; lia).
  rewrite (lastIndex_length l Hl Hfit).
  rewrite AppendAt_renumber by (done || lia).
  unfold Append. rewrite append_renumber by done.
  by rewrite Nat2Z.id, take_ge by lia.
Qed.

(** X9.  The errors of the writes, for any queue at all.  [Append] returns
    no error.  [AppendAt] returns one exactly when [prevIndex] is above the
    number of the entries in the queue, and then the log and the caller's
    entries are as they were: no index has been rewritten. *)
Theorem AppendAt_error (l : memoryLog) (prevIndex : Z)
    (entries : list LogEntry) :
  fits l -> 0 <= prevIndex < 2 ^ 64 ->
  (Append l entries).2 = None /\
  ((AppendAt l prevIndex entries).2 <> None <->
   Z.of_nat (length (queue l)) < prevIndex) /\
  ((AppendAt l prevIndex entries).2 <> None ->
   AppendAt l prevIndex entries
     = (l, entries, Some "index out of log's range")).
Proof.
  intros Hfit Hp.
  assert (Happ : forall l0, (append l0 entries).2 = None).
  { intros l0. by rewrite append_queue. }
  split; [apply Happ|].
  destruct (Z.ltb_spec (Z.of_nat (length (queue l))) prevIndex) as [H|H].
  - unfold AppendAt. rewrite popAfter_beyond by done. simpl.
    split; [|done]. split; [done|]. done.
  - unfold AppendAt. rewrite popAfter_take by (done || lia).
    rewrite Happ. split; [|done]. split; [done|lia].
Qed.

End LogWriting.

(** ** The node: terms and roles *)

Section NodeRoles.

Import Raft.

(** X10.  [reactToRPCArgs] takes the node's term to the larger of its own
    and the one it is shown, and nothing else of the state changes: the
    vote, the log, [commitIndex] and [lastApplied] are as before.  It
    reports a conversion, with a follower over the node, exactly when the
    term it is shown is above the node's; otherwise it hands back no role
    and the node as it was. *)
Theorem reactToRPCArgs_term (r : raft) (args : rpcArgs) :
  GetCurrentTerm (reactToRPCArgs r args).1.1
    = Z.max (GetCurrentTerm r) (getTerm args) /\
  GetVotedFor (reactToRPCArgs r args).1.1 = GetVotedFor r /\
  log (reactToRPCArgs r args).1.1 = log r /\
  GetCommitIndex (reactToRPCArgs r args).1.1 = GetCommitIndex r /\
  GetLastApplied (reactToRPCArgs r args).1.1 = GetLastApplied r /\
  (reactToRPCArgs r args).2 = bool_decide (GetCurrentTerm r < getTerm args) /\
  (reactToRPCArgs r args).1.2 =
    (if bool_decide (GetCurrentTerm r < getTerm args)
     then Some (follower (reactToRPCArgs r args).1.1) else None) /\
  (reactToRPCArgs r args).1.1 =
    (if bool_decide (GetCurrentTerm r < getTerm args)
     then SetCurrentTerm r (getTerm args) else r).
Proof.
  unfold reactToRPCArgs.
  destruct (Z.gtb_spec (getTerm args) (GetCurrentTerm r)) as [H|H].
  - rewrite bool_decide_eq_true_2 by lia. cbn.
    repeat split; try done. unfold GetCurrentTerm in *. lia.
  - rewrite bool_decide_eq_false_2 by lia. cbn.
    repeat split; try done. lia.
Qed.

Lemma sendRPCArgs_full r a args :
  foldl (sendRPCArgs r) [a] args = [a].
Proof.
  induction args as [|b args IH]; [done|]. simpl.
  unfold sendRPCArgs at 2. by destruct (getTerm b <=? GetCurrentTerm r).
Qed.

(** X11.  The channel [rpcArgs] keeps the first and drops the rest.  Of
    the arguments handed to [sendRPCArgs] while the node's term stands and
    nobody receives, the channel, empty at first, holds the first whose
    term is above the node's and no other, even one of a higher term; and
    [reactToRPCArgs] converts the node on what the channel holds. *)
Theorem sendRPCArgs_first (r : raft) (sent : list rpcArgs) :
  foldl (sendRPCArgs r) [] sent
    = take 1 (filter (fun a => GetCurrentTerm r < getTerm a) sent) /\
  forall a, a ∈ foldl (sendRPCArgs r) [] sent ->
    (reactToRPCArgs r a).2 = true.
Proof.
  assert (H : foldl (sendRPCArgs r) [] sent
              = take 1 (filter (fun a => GetCurrentTerm r < getTerm a) sent)).
  { induction sent as [|a sent IH]; [done|]. simpl.
    unfold sendRPCArgs at 2.
    destruct (Z.leb_spec (getTerm a) (GetCurrentTerm r)) as [Hle|Hgt].
    - rewrite filter_cons_False by lia. done.
    - rewrite filter_cons_True by lia. simpl. rewrite sendRPCArgs_full.
      by rewrite take_0. }
  split; [done|]. rewrite H. intros a Ha.
  apply elem_of_take in Ha as (i & Ha & _).
  apply list_elem_of_lookup_2, list_elem_of_filter in Ha as [Ha _].
  unfold reactToRPCArgs.
  by destruct (Z.gtb_spec (getTerm a) (GetCurrentTerm r)); [|lia].
Qed.

(** The two maps that [ToLeader] builds. *)
Lemma ToLeader_fold_next (v : Z) (kvs : list (RaftId * RaftAddr)) srv :
  nextIndex
    (foldl (fun server kv =>
              mkLeader (node server) (Store (nextIndex server) kv.1 v)
                (Store (matchIndex server) kv.1 0)) srv kvs)
  = foldl (fun m kv => <[kv.1 := v]> m) (nextIndex srv) kvs /\
  matchIndex
    (foldl (fun server kv =>
              mkLeader (node server) (Store (nextIndex server) kv.1 v)
                (Store (matchIndex server) kv.1 0)) srv kvs)
  = foldl (fun m kv => <[kv.1 := 0]> m) (matchIndex srv) kvs /\
  node
    (foldl (fun server kv =>
              mkLeader (node server) (Store (nextIndex server) kv.1 v)
                (Store (matchIndex server) kv.1 0)) srv kvs)
  = node srv.
Proof.
  revert srv. induction kvs as [|kv kvs IH]; intros srv; [done|].
  simpl. destruct (IH (mkLeader (node srv) (Store (nextIndex srv) kv.1 v)
                         (Store (matchIndex srv) kv.1 0))) as (H1 & H2 & H3).
  by rewrite H1, H2, H3.
Qed.

Lemma fold_insert_const (v : Z) (m : gmap RaftId RaftAddr) :
  foldl (fun (acc : gmap RaftId Z) (kv : RaftId * RaftAddr) =>
           <[kv.1 := v]> acc) ∅ (map_to_list m)
  = (fun _ => v) <$> m.
Proof.
  assert (G : forall (kvs : list (RaftId * RaftAddr)) k,
            foldl (fun (acc : gmap RaftId Z) (kv : RaftId * RaftAddr) =>
                     <[kv.1 := v]> acc) ∅ kvs !! k
            = if decide (k ∈ kvs.*1) then Some v else None).
  { intros kvs k. induction kvs as [|kv kvs IH] using rev_ind.
    - cbn [foldl]. rewrite lookup_empty. case_decide; [set_solver|done].
    - rewrite foldl_app. cbn [foldl]. rewrite fmap_app.
      destruct (decide (kv.1 = k)) as [<-|Hne].
      + rewrite lookup_insert_eq. clear IH.
        case_decide; [done|set_solver].
      + rewrite lookup_insert_ne by done. rewrite IH.
        destruct (decide (k ∈ kvs.*1)) as [H1|H1];
          destruct (decide (k ∈ kvs.*1 ++ [kv].*1)) as [H2|H2];
          try done; exfalso.
        * apply H2, elem_of_app. by left.
        * apply elem_of_app in H2 as [H2|H2]; [done|].
          apply list_elem_of_singleton in H2. simpl in H2. congruence. }
  apply map_eq. intros k. rewrite G, lookup_fmap.
  destruct (m !! k) as [a|] eqn:E; simpl.
  - rewrite decide_True; [done|].
    apply list_elem_of_fmap. exists (k, a). split; [done|].
    by apply elem_of_map_to_list.
  - rewrite decide_False; [done|]. intros Hin.
    apply list_elem_of_fmap in Hin as ([k' a] & -> & Hin).
    apply elem_of_map_to_list in Hin. simpl in E. congruence.
Qed.

Lemma ToLeader_maps r :
  ToLeader r =
    (Some (mkLeader r ((fun _ => int ((Last r).1.1 + 1)) <$> peers r)
             ((fun _ => 0) <$> peers r)), None).
Proof.
  unfold ToLeader. pose proof (Last_err r) as He.
  destruct (Last r) as [[lastLogIndex t] err]. simpl in *. subst err.
  do 2 f_equal.
  destruct (ToLeader_fold_next (int (lastLogIndex + 1))
              (map_to_list (peers r)) (mkLeader r ∅ ∅)) as (H1 & H2 & H3).
  simpl in *.
  destruct (foldl _ _ _) as [n nx mx]. simpl in *. subst.
  by rewrite !fold_insert_const.
Qed.

(** X12.  [ToLeader] returns no error and makes a leader over the node as
    it is, whose maps hold the peers of the node and no other id:
    [nextIndex] is one above the last index of the log for each peer, and
    [matchIndex] is 0; [Load] of an id that is no peer reports it
    missing. *)
Theorem ToLeader_init (r : raft) :
  exists l,
    ToLeader r = (Some l, None) /\
    node l = r /\
    dom (nextIndex l) = dom (peers r) /\
    dom (matchIndex l) = dom (peers r) /\
    forall id,
      Load (nextIndex l) id =
        (if decide (id ∈ dom (peers r))
         then (int ((Last r).1.1 + 1), true) else (0, false)) /\
      Load (matchIndex l) id =
        (if decide (id ∈ dom (peers r)) then (0, true) else (0, false)).
Proof.
  eexists. split; [apply ToLeader_maps|]. simpl.
  split; [done|]. split; [by rewrite dom_fmap_L|].
  split; [by rewrite dom_fmap_L|].
  intros id. unfold Load. rewrite !lookup_fmap.
  destruct (decide (id ∈ dom (peers r))) as [Hin|Hin].
  - apply elem_of_dom in Hin as [a Ha]. by rewrite Ha.
  - apply not_elem_of_dom in Hin. by rewrite Hin.
Qed.

(** X13.  Over a log made by the log's operations, the leader that
    [ToLeader] makes has, for every peer, [nextIndex] one above the last
    index, so at least 1, and [matchIndex] 0, below [nextIndex]. *)
Theorem ToLeader_invariant (r : raft) (l : leader) (id : RaftId) :
  Log.reachable (log r) ->
  Z.of_nat (length (Log.queue (log r))) + 1 < 2 ^ 63 ->
  ToLeader r = (Some l, None) -> id ∈ dom (peers r) ->
  nextIndex l !! id = Some (Log.lastIndex (log r) + 1) /\
  matchIndex l !! id = Some 0 /\
  1 <= Log.lastIndex (log r) + 1 /\
  0 < Log.lastIndex (log r) + 1.
Proof.
  intros Hr Hlen HL Hin. rewrite ToLeader_maps in HL.
  injection HL as <-. simpl.
  assert (Hfit : Log.fits (log r)) by (unfold Log.fits; lia).
  pose proof (reachable_indexed _ Hr) as Hl.
  pose proof (lastIndex_length _ Hl Hfit) as Hlast.
  apply elem_of_dom in Hin as [a Ha].
  rewrite !lookup_fmap, Ha. simpl.
  assert (HLast : (Last r).1.1 = Log.lastIndex (log r)).
  { unfold Last, Log.Last, Log.lastIndex in *.
    destruct (Log.last (log r)) as [[i t] err]. simpl in *.
    unfold Log.fits in Hfit. apply int_small. lia. }
  rewrite HLast, Hlast. unfold Log.fits in Hfit.
  rewrite int_small by lia. repeat split; lia.
Qed.

(** X14.  The role at the start.  [initServer] returns no error; it makes
    the node a leader exactly when the stored vote is the node's own id,
    and not the nil id, and a follower otherwise, over the node as it
    is. *)
Theorem initServer_role (r : raft) :
  exists s,
    initServer r = (Some s, None) /\
    match s with
    | Leader l =>
        node l = r /\ GetVotedFor r = id r /\ id r <> "" /\
        ToLeader r = (Some l, None)
    | follower r' => r' = r /\ (GetVotedFor r = "" \/ GetVotedFor r <> id r)
    | candidate _ => False
    end.
Proof.
  unfold initServer, isNil.
  destruct (decide (GetVotedFor r = "")) as [Hnil|Hnil].
  - rewrite (bool_decide_eq_true_2 _ Hnil). simpl.
    eexists. split; [done|]. simpl. split; [done|]. by left.
  - rewrite (bool_decide_eq_false_2 _ Hnil). simpl.
    destruct (decide (GetVotedFor r = id r)) as [Hid|Hid].
    + rewrite (bool_decide_eq_true_2 _ Hid). rewrite ToLeader_maps. simpl.
      eexists. split; [done|]. simpl. repeat split; try done. congruence.
    + rewrite (bool_decide_eq_false_2 _ Hid). simpl.
      eexists. split; [done|]. simpl. split; [done|]. by right.
Qed.

(** X15.  A candidate that starts again is a leader.  [ToCandidate] stores
    the next term and the vote for the node itself; [initServer] on that
    state makes the node the leader of the new term, though no peer has
    voted. *)
Theorem ToCandidate_initServer (r : raft) :
  id r <> "" ->
  exists l,
    initServer (ToCandidate r).1 = (Some (Leader l), None) /\
    node l = (ToCandidate r).1 /\
    GetCurrentTerm (node l) = int (GetCurrentTerm r + 1) /\
    GetVotedFor (node l) = id r /\
    log (node l) = log r.
Proof.
  intros Hid. unfold initServer, ToCandidate, isNil. cbn.
  rewrite (bool_decide_eq_false_2 _ Hid).
  rewrite bool_decide_eq_true_2 by done. simpl.
  rewrite ToLeader_maps. simpl. eexists. split; [done|]. done.
Qed.

End NodeRoles.

(** ** The node: committing and applying *)

Section NodeApply.

Import Raft.

Lemma fold_Cmd (entries : list Log.LogEntry) (data : list Log.Command) :
  foldl (fun data e => data ++ [Log.Cmd e]) data entries
  = data ++ map Log.Cmd entries.
Proof.
  revert data. induction entries as [|e entries IH]; intros data; simpl.
  - by rewrite app_nil_r.
  - rewrite IH. by rewrite <- app_assoc.
Qed.

(** The entries [ApplyCommitted] reads from the log. *)
Lemma RangeGet_slice (l : Log.memoryLog) (i j : Z) :
  Log.fits l -> 0 <= i < 2 ^ 64 -> 0 <= j < 2 ^ 64 ->
  Log.RangeGet l i j =
    Some (take (Z.to_nat (Z.min j (Z.of_nat (length (Log.queue l))) - i))
               (drop (Z.to_nat i) (Log.queue l)), None).
Proof.
  intros Hfit Hi Hj. destruct (Z.leb_spec j i) as [Hle|Hlt].
  - rewrite RangeGet_le by done.
    by replace (Z.to_nat _) with 0%nat by lia.
  - by rewrite RangeGet_spec by (done || lia).
Qed.

(** X16.  The batch of [ApplyCommitted].  Over a log made by the log's
    operations the callback is handed, in the order of the log, the
    commands of the entries with the indices above [lastApplied] up to
    [commitIndex], and no others; with [commitIndex] at or below
    [lastApplied] it is still called, with no commands.  When it returns
    an error the node is as it was; otherwise [lastApplied] grows by the
    count it returns and nothing else changes. *)
Theorem ApplyCommitted_batch (apply : Apply) (r : raft) :
  Log.reachable (log r) -> Log.fits (log r) ->
  0 <= GetLastApplied r < 2 ^ 63 -> 0 <= GetCommitIndex r < 2 ^ 63 ->
  exists entries,
    (forall e, e ∈ entries <->
       e ∈ Log.queue (log r) /\
       GetLastApplied r < Log.Index e <= GetCommitIndex r) /\
    entries =
      take (Z.to_nat (Z.min (GetCommitIndex r) (Log.lastIndex (log r))
                      - GetLastApplied r))
           (drop (Z.to_nat (GetLastApplied r)) (Log.queue (log r))) /\
    (GetCommitIndex r <= GetLastApplied r -> entries = []) /\
    ApplyCommitted apply r =
      Some (match (apply (map Log.Cmd entries)).2 with
            | Some e => (r, Some e)
            | None =>
                (SetLastApplied r
                   (int (GetLastApplied r
                         + (apply (map Log.Cmd entries)).1)), None)
            end).
Proof.
  intros Hr Hfit Ha Hc. pose proof (reachable_indexed _ Hr) as Hl.
  pose proof (indexed_contiguous _ Hl Hfit) as Hcont.
  rewrite (lastIndex_length _ Hl Hfit).
  set (a := GetLastApplied r) in *. set (c := GetCommitIndex r) in *.
  set (n := Z.to_nat (Z.min c (Z.of_nat (length (Log.queue (log r)))) - a)).
  exists (take n (drop (Z.to_nat a) (Log.queue (log r)))).
  assert (Hlook : forall k e,
            take n (drop (Z.to_nat a) (Log.queue (log r))) !! k = Some e <->
            (k < n)%nat /\ Log.queue (log r) !! (Z.to_nat a + k)%nat = Some e).
  { intros k e. rewrite lookup_take_Some, lookup_drop. tauto. }
  split; [|split; [done|split]].
  - intros e. split.
    + intros He. apply list_elem_of_lookup in He as [k Hk].
      apply Hlook in Hk as [Hk He]. split.
      * apply list_elem_of_lookup. eauto.
      * rewrite (Hcont _ _ He). lia.
    + intros [He Hr']. apply list_elem_of_lookup in He as [k Hk].
      pose proof (Hcont _ _ Hk) as Hik. pose proof (lookup_lt_Some _ _ _ Hk).
      apply list_elem_of_lookup. exists (k - Z.to_nat a)%nat.
      apply Hlook. split; [lia|].
      by replace (Z.to_nat a + (k - Z.to_nat a))%nat with k by lia.
  - intros Hle. subst n. by replace (Z.to_nat _) with 0%nat by lia.
  - unfold ApplyCommitted. rewrite Z.leb_refl. fold a c.
    unfold RangeGet. rewrite !uint64_small by lia.
    rewrite RangeGet_slice by (done || lia). fold n. cbn [mbind option_bind fst snd].
    unfold newCommands. rewrite fold_Cmd. cbn [app].
    destruct (apply _) as [count [e|]]; done.
Qed.

(** X17.  [ApplyCommitted] twice.  When the callback applies all it is
    handed and [commitIndex] is within the log, [lastApplied] reaches
    [commitIndex]; a second [ApplyCommitted] with [commitIndex] unchanged
    hands its callback no commands. *)
Theorem ApplyCommitted_twice (apply apply' : Apply) (r : raft) :
  Log.reachable (log r) -> Log.fits (log r) ->
  0 <= GetLastApplied r <= GetCommitIndex r ->
  GetCommitIndex r <= Log.lastIndex (log r) ->
  (forall commands,
     apply commands = (Z.of_nat (length commands), None)) ->
  exists r',
    ApplyCommitted apply r = Some (r', None) /\
    GetLastApplied r' = GetCommitIndex r /\
    GetCommitIndex r' = GetCommitIndex r /\
    log r' = log r /\
    ApplyCommitted apply' r' =
      Some (match (apply' []).2 with
            | Some e => (r', Some e)
            | None =>
                (SetLastApplied r' (int (GetCommitIndex r + (apply' []).1)),
                 None)
            end).
Proof.
  intros Hr Hfit Ha Hc Happ. pose proof (reachable_indexed _ Hr) as Hl.
  rewrite (lastIndex_length _ Hl Hfit) in Hc.
  assert (Hfit' := Hfit). unfold Log.fits in Hfit'.
  set (a := GetLastApplied r) in *. set (c := GetCommitIndex r) in *.
  assert (H1 : ApplyCommitted apply r = Some (SetLastApplied r c, None)).
  { unfold ApplyCommitted. rewrite Z.leb_refl. fold a c.
    unfold RangeGet. rewrite !uint64_small by lia.
    rewrite RangeGet_slice by (done || lia).
    cbn [mbind option_bind fst snd].
    unfold newCommands. rewrite fold_Cmd. cbn [app].
    rewrite Happ. rewrite length_map, length_take, length_drop.
    do 3 f_equal. rewrite int_small by lia. lia. }
  exists (SetLastApplied r c). split; [done|]. split; [done|].
  split; [done|]. split; [done|].
  unfold ApplyCommitted. rewrite Z.leb_refl.
  change (GetCommitIndex (SetLastApplied r c)) with c.
  change (GetLastApplied (SetLastApplied r c)) with c.
  unfold RangeGet. rewrite !uint64_small by lia.
  rewrite RangeGet_le by lia. cbn [mbind option_bind fst snd foldl].
  unfold newCommands. by destruct (apply' []) as [count [e|]].
Qed.

(** X18.  [syncLeaderCommit] writes [commitIndex] and nothing else of the
    state.  The value it writes is not above the last index of the log,
    and not above [leaderCommit]; and the same call again leaves
    [commitIndex] where the first call put it. *)
Theorem syncLeaderCommit_again (r : raft) (leaderCommit : Z) :
  log (syncLeaderCommit r leaderCommit).1 = log r /\
  GetCurrentTerm (syncLeaderCommit r leaderCommit).1 = GetCurrentTerm r /\
  GetVotedFor (syncLeaderCommit r leaderCommit).1 = GetVotedFor r /\
  GetLastApplied (syncLeaderCommit r leaderCommit).1 = GetLastApplied r /\
  (syncLeaderCommit r leaderCommit).2 = None /\
  (GetCommitIndex (syncLeaderCommit r leaderCommit).1 = GetCommitIndex r \/
   GetCommitIndex (syncLeaderCommit r leaderCommit).1
     = Z.min leaderCommit (Last r).1.1) /\
  GetCommitIndex
    (syncLeaderCommit (syncLeaderCommit r leaderCommit).1 leaderCommit).1
  = GetCommitIndex (syncLeaderCommit r leaderCommit).1.
Proof.
  assert (H : forall r0,
            syncLeaderCommit r0 leaderCommit =
              if leaderCommit <=? GetCommitIndex r0 then (r0, None)
              else (Signal (SetCommitIndex r0
                              (Z.min leaderCommit (Last r0).1.1)), None)).
  { intros r0. unfold syncLeaderCommit. pose proof (Last_err r0) as He.
    destruct (leaderCommit <=? GetCommitIndex r0); [done|].
    destruct (Last r0) as [[lastIndex t] err]. simpl in *. subst err.
    destruct (Z.ltb_spec lastIndex leaderCommit).
    - by rewrite Z.min_r by lia.
    - by rewrite Z.min_l by lia. }
  rewrite (H (syncLeaderCommit r leaderCommit).1), (H r).
  destruct (Z.leb_spec leaderCommit (GetCommitIndex r)) as [Hle|Hgt].
  - cbn [fst snd]. destruct (Z.leb_spec leaderCommit (GetCommitIndex r));
      [|lia]. repeat split; try done. by left.
  - cbn [fst snd]. repeat split; try done; [by right|].
    change (GetCommitIndex
              (Signal (SetCommitIndex r (Z.min leaderCommit (Last r).1.1))))
      with (Z.min leaderCommit (Last r).1.1).
    destruct (leaderCommit <=? _); [done|]. cbn [fst]. done.
Qed.

End NodeApply.

(** ** The leader: one round *)

Section LeaderRound.

Import Raft Leader.

Lemma Get_err (l : Log.memoryLog) (i : Z) : (Log.Get l i).2 = None.
Proof.
  unfold Log.Get. destruct (i =? 0); [done|].
  destruct (_ && _); [|done]. by destruct (Log.queue l !! _).
Qed.

Lemma RangeGet_ok (l : Log.memoryLog) (i j : Z) :
  exists entries, Log.RangeGet l i j = Some (entries, None).
Proof.
  destruct (RangeGet_total l i j) as [[entries err] H].
  exists entries. rewrite H. unfold Log.RangeGet in H.
  destruct (j <=? i); [by injection H as <- <-|].
  destruct (Log.RangeGet_loop _ _ _ _ _); simpl in H; [|done].
  by injection H as <- <-.
Qed.

(** What [calcCommitIndex] can do to the leader. *)
Lemma calcCommitIndex_cases (l : leader) :
  (calcCommitIndex l).1 = l \/
  (GetCommitIndex (node l) < nextCommitIndex l /\
   (calcCommitIndex l).1 =
     mkLeader (Signal (SetCommitIndex (node l) (nextCommitIndex l)))
       (nextIndex l) (matchIndex l)).
Proof.
  unfold calcCommitIndex.
  destruct (Last (node l)) as [[lastLogIndex lastLogTerm] e0].
  destruct (negb (lastLogTerm =? GetCurrentTerm (node l))); [by left|].
  destruct (Z.leb_spec (nextCommitIndex l) (GetCommitIndex (node l)));
    [by left|].
  destruct (Get (node l) (nextCommitIndex l)) as [entryTerm [e|]];
    [by left|].
  destruct (negb (entryTerm =? GetCurrentTerm (node l))); [by left|].
  right. by split.
Qed.


Lemma roundArgs_some (l : leader) (id : RaftId) :
  exists args, roundArgs l id = Some ((Load (nextIndex l) id).1, args).
Proof.
  unfold roundArgs. destruct (Load (nextIndex l) id) as [next ok]. cbn [fst].
  assert (HG : (Get (node l) (int (next - 1))).2 = None).
  { unfold Get. pose proof (Get_err (log (node l)) (uint64 (int (next - 1)))).
    by destruct (Log.Get _ _). }
  destruct (Get (node l) (int (next - 1))) as [prevLogTerm err].
  simpl in HG. subst err.
  destruct (Last (node l)) as [[lastLogIndex lastLogTerm] e0].
  destruct (lastLogTerm =? GetCurrentTerm (node l)); [|eauto].
  destruct (lastLogIndex >=? next); [|eauto].
  unfold RangeGet.
  destruct (RangeGet_ok (log (node l)) (uint64 (int (next - 1)))
              (uint64 lastLogIndex)) as [entries ->]. eauto.
Qed.

(** X20.  The arguments of a round.  Over the in-memory log [roundArgs]
    never gives up: it reads [nextIndex] of the peer (0 when the peer has
    none) and fills the current term, the leader's id, its [commitIndex],
    [prevLogIndex] one below [nextIndex] and the term [Get] reports there.
    It sends no entries unless the last entry of the log has the current
    term and the last index has reached [nextIndex]. *)
Theorem roundArgs_fields (l : leader) (id : RaftId) :
  exists args,
    roundArgs l id = Some ((Load (nextIndex l) id).1, args) /\
    argsTerm args = GetCurrentTerm (node l) /\
    LeaderId args = Raft.id (node l) /\
    LeaderCommit args = GetCommitIndex (node l) /\
    PrevLogIndex args = int ((Load (nextIndex l) id).1 - 1) /\
    PrevLogTerm args = (Get (node l) (PrevLogIndex args)).1 /\
    (Entries args = [] \/
     ((Last (node l)).1.2 = GetCurrentTerm (node l) /\
      (Load (nextIndex l) id).1 <= (Last (node l)).1.1)).
Proof.
  unfold roundArgs. destruct (Load (nextIndex l) id) as [next ok]. cbn [fst].
  assert (HG : (Get (node l) (int (next - 1))).2 = None).
  { unfold Get. pose proof (Get_err (log (node l)) (uint64 (int (next - 1)))).
    by destruct (Log.Get _ _). }
  destruct (Get (node l) (int (next - 1))) as [prevLogTerm err] eqn:EG.
  simpl in HG. subst err.
  destruct (Last (node l)) as [[lastLogIndex lastLogTerm] e0]. cbn [fst snd].
  destruct (Z.eqb_spec lastLogTerm (GetCurrentTerm (node l))) as [Ht|Ht].
  - destruct (Z.geb_spec lastLogIndex next) as [Hn|Hn].
    + unfold RangeGet.
      destruct (RangeGet_ok (log (node l)) (uint64 (int (next - 1)))
                  (uint64 lastLogIndex)) as [entries ->].
      eexists. split; [reflexivity|]. cbn. rewrite EG.
      repeat split; try done. right. split; [done|lia].
    + eexists. split; [reflexivity|]. cbn. rewrite EG.
      repeat split; try done. by left.
  - eexists. split; [reflexivity|]. cbn. rewrite EG.
    repeat split; try done. by left.
Qed.

(** X21.  The entries of a round.  Over a log made by the log's
    operations whose last entry has the current term, a round for a peer
    with [nextIndex] from 1 to the last index sends [prevLogIndex] one
    below [nextIndex] and all the entries from index [nextIndex] to the
    end of the log, in their order. *)
Theorem roundArgs_entries (l : leader) (id : RaftId) (next : Z) :
  Log.reachable (log (node l)) -> Log.fits (log (node l)) ->
  (Last (node l)).1.2 = GetCurrentTerm (node l) ->
  nextIndex l !! id = Some next ->
  1 <= next <= Log.lastIndex (log (node l)) ->
  exists args,
    roundArgs l id = Some (next, args) /\
    PrevLogIndex args = next - 1 /\
    Entries args = drop (Z.to_nat (next - 1)) (Log.queue (log (node l))) /\
    Z.of_nat (length (Entries args))
      = Log.lastIndex (log (node l)) - next + 1 /\
    forall e, e ∈ Entries args <->
      e ∈ Log.queue (log (node l)) /\ next <= Log.Index e.
Proof.
  intros Hr Hfit Hterm Hnext Hrange.
  pose proof (reachable_indexed _ Hr) as Hl.
  pose proof (indexed_contiguous _ Hl Hfit) as Hcont.
  pose proof (lastIndex_length _ Hl Hfit) as Hlast.
  rewrite Hlast in Hrange. assert (Hfit' := Hfit). unfold Log.fits in Hfit'.
  assert (HLast : (Last (node l)).1.1
                  = Z.of_nat (length (Log.queue (log (node l))))).
  { unfold Last, Log.Last, Log.lastIndex in *.
    destruct (Log.last (log (node l))) as [[i t] err]. simpl in *.
    rewrite Hlast. apply int_small. lia. }
  unfold roundArgs, Load. rewrite Hnext.
  assert (HG : (Get (node l) (int (next - 1))).2 = None).
  { unfold Get. pose proof (Get_err (log (node l)) (uint64 (int (next - 1)))).
    by destruct (Log.Get _ _). }
  destruct (Get (node l) (int (next - 1))) as [prevLogTerm err] eqn:EG.
  simpl in HG. subst err.
  destruct (Last (node l)) as [[lastLogIndex lastLogTerm] e0].
  cbn [fst snd] in *. subst lastLogTerm lastLogIndex.
  rewrite Z.eqb_refl.
  destruct (Z.geb_spec (Z.of_nat (length (Log.queue (log (node l))))) next);
    [|lia].
  unfold RangeGet. rewrite (int_small (next - 1)) by lia.
  rewrite !uint64_small by lia.
  rewrite RangeGet_slice by (done || lia).
  rewrite Z.min_id.
  rewrite take_ge by (rewrite length_drop; lia).
  eexists. split; [reflexivity|]. cbn.
  split; [done|]. split; [done|]. split.
  - rewrite Hlast, length_drop. lia.
  - intros e. split.
    + intros He. apply list_elem_of_lookup in He as [k Hk].
      rewrite lookup_drop in Hk. split.
      * apply list_elem_of_lookup. eauto.
      * rewrite (Hcont _ _ Hk). lia.
    + intros [He Hn]. apply list_elem_of_lookup in He as [k Hk].
      pose proof (Hcont _ _ Hk) as Hik.
      apply list_elem_of_lookup. exists (k - Z.to_nat (next - 1))%nat.
      rewrite lookup_drop.
      by replace (Z.to_nat (next - 1) + (k - Z.to_nat (next - 1)))%nat
        with k by lia.
Qed.

Lemma roundResults_cases l id next args results :
  (exists b : bool,
     roundResults l id next args results = (l, false, b) /\ b = false) \/
  (roundResults l id next args results =
     (mkLeader (node l) (Store (nextIndex l) id (int (next - 1)))
        (matchIndex l), false, true)) \/
  (exists nx,
     (nx = nextIndex l \/ exists v, nx = Store (nextIndex l) id v) /\
     roundResults l id next args results =
       ((calcCommitIndex
           (mkLeader (node l) nx
              (Store (matchIndex l) id (PrevLogIndex args)))).1,
        true, false)).
Proof.
  unfold roundResults. destruct results as [results|]; [|left; eauto].
  destruct (Success results); [|right; left; done].
  right; right.
  destruct (0 <? length (Entries args))%nat.
  - destruct (Entries args !! _) as [e|].
    + exists (Store (nextIndex l) id (int (Log.Index e + 1))).
      split; [right; eauto|]. cbn [node nextIndex matchIndex].
      by destruct (calcCommitIndex _).
    + exists (nextIndex l). split; [by left|].
      cbn [node nextIndex matchIndex]. by destruct (calcCommitIndex _).
  - exists (nextIndex l). split; [by left|].
    cbn [node nextIndex matchIndex]. by destruct (calcCommitIndex _).
Qed.

(** X22.  A round leaves the leader's log alone.  Whatever the peer
    answers, after [round] the log, the current term, the vote,
    [lastApplied], the id and the peers of the node are as before, and
    [commitIndex] has not decreased. *)
Theorem round_node (l : leader) (id : RaftId)
    (call : AppendEntriesArgs -> option AppendEntriesResults) :
  log (node (round l id call).1.1) = log (node l) /\
  GetCurrentTerm (node (round l id call).1.1) = GetCurrentTerm (node l) /\
  GetVotedFor (node (round l id call).1.1) = GetVotedFor (node l) /\
  GetLastApplied (node (round l id call).1.1) = GetLastApplied (node l) /\
  Raft.id (node (round l id call).1.1) = Raft.id (node l) /\
  peers (node (round l id call).1.1) = peers (node l) /\
  GetCommitIndex (node l) <= GetCommitIndex (node (round l id call).1.1).
Proof.
  unfold round. destruct (roundArgs l id) as [[next args]|];
    [|cbn; repeat split; (done || lia)].
  destruct (roundResults_cases l id next args (call args))
    as [(b & -> & _)|[->|(nx & _ & ->)]];
    cbn [fst snd node]; try (repeat split; (done || lia)).
  destruct (calcCommitIndex_cases
              (mkLeader (node l) nx
                 (Store (matchIndex l) id (PrevLogIndex args))))
    as [->|[Hlt ->]]; cbn [node] in *.
  - repeat split; (done || lia).
  - repeat split; try done.
    change (GetCommitIndex (Signal (SetCommitIndex (node l) ?n))) with n.
    lia.
Qed.

(** X23.  A round for one peer does not touch the others: for every other
    id the two maps answer [Load] as before. *)
Theorem round_other_peers (l : leader) (id p : RaftId)
    (call : AppendEntriesArgs -> option AppendEntriesResults) :
  p <> id ->
  Load (nextIndex (round l id call).1.1) p = Load (nextIndex l) p /\
  Load (matchIndex (round l id call).1.1) p = Load (matchIndex l) p.
Proof.
  intros Hp. unfold round.
  destruct (roundArgs l id) as [[next args]|]; [|done].
  destruct (roundResults_cases l id next args (call args))
    as [(b & -> & _)|[->|(nx & Hnx & ->)]]; cbn [fst snd]; [done| |].
  - cbn. unfold Load, Store. by rewrite lookup_insert_ne.
  - destruct (calcCommitIndex_cases
                (mkLeader (node l) nx
                   (Store (matchIndex l) id (PrevLogIndex args))))
      as [->|[_ ->]]; cbn;
      (split; [destruct Hnx as [->|[v ->]]; [done|]|]);
      unfold Load, Store; by rewrite lookup_insert_ne.
Qed.

(** X24.  No change without a signal.  When a round sends nothing on
    [replicateCh], the node and [matchIndex] are as before: all the round
    may have changed is [nextIndex] of its peer.  When the loop is to go
    on, it has sent nothing and [nextIndex] of the peer is one less. *)
Theorem round_no_signal (l : leader) (id : RaftId)
    (call : AppendEntriesArgs -> option AppendEntriesResults) :
  (round l id call).1.2 = false ->
  node (round l id call).1.1 = node l /\
  matchIndex (round l id call).1.1 = matchIndex l /\
  (nextIndex (round l id call).1.1 = nextIndex l \/
   (round l id call).2 = true /\
   nextIndex (round l id call).1.1
     = Store (nextIndex l) id (int ((Load (nextIndex l) id).1 - 1))).
Proof.
  unfold round.
  destruct (roundArgs_some l id) as (args & ->).
  destruct (roundResults_cases l id (Load (nextIndex l) id).1 args (call args))
    as [(b & -> & _)|[->|(nx & _ & ->)]]; cbn [fst snd]; try done.
  - intros _. repeat split. by left.
  - intros _. cbn. repeat split. by right.
Qed.

End LeaderRound.

(** ** The leader: the commit index *)

Section LeaderMajority.

Import Raft Leader.

Lemma sort_Ints_sorted (a : list Z) : StronglySorted Z.le (sort_Ints a).
Proof.
  apply Sorted_StronglySorted; [intros x y z; apply Z.le_trans|].
  apply Sorted_merge_sort. apply _.
Qed.

Lemma sort_Ints_perm (a : list Z) : sort_Ints a ≡ₚ a.
Proof. apply merge_sort_Permutation. Qed.

Lemma sort_Ints_unique (a b : list Z) : a ≡ₚ b -> sort_Ints a = sort_Ints b.
Proof.
  intros Hab.
  apply (StronglySorted_unique_strong Z.le);
    [|apply sort_Ints_sorted|apply sort_Ints_sorted|].
  - intros x y _ _ Hxy Hyx. lia.
  - by rewrite !sort_Ints_perm.
Qed.

(** From a position of a sorted slice on, the elements are at least the
    one at that position. *)
Lemma sorted_drop (s : list Z) (i : nat) (x : Z) :
  StronglySorted Z.le s -> s !! i = Some x ->
  Forall (fun y => x <= y) (drop i s).
Proof.
  intros Hs. revert i. induction Hs as [|y s Hs IH Hy]; intros i Hi.
  - by destruct i.
  - destruct i as [|i]; simpl in *.
    + injection Hi as ->. constructor; [lia|done].
    + by apply IH.
Qed.

Lemma filter_all (P : Z -> Prop) `{!forall x, Decision (P x)} (s : list Z) :
  Forall P s -> filter P s = s.
Proof.
  induction 1 as [|x s Hx _ IH]; [done|].
  by rewrite filter_cons_True, IH.
Qed.

Lemma sorted_count (s : list Z) (i : nat) (x : Z) :
  StronglySorted Z.le s -> s !! i = Some x ->
  (length s - i <= length (filter (fun y => (x <= y)%Z) s))%nat.
Proof.
  intros Hs Hi. rewrite <- (take_drop i s) at 2.
  rewrite filter_app, length_app.
  rewrite (filter_all _ (drop i s)) by (by apply sorted_drop).
  rewrite length_drop. lia.
Qed.

(** X25.  [commitIndex] moves only with a majority of [matchIndex].
    Whenever [calcCommitIndex] changes [commitIndex], more than half of the
    entries of [matchIndex] are at or above the new value. *)
Theorem calcCommitIndex_majority (l : leader) :
  GetCommitIndex (node (calcCommitIndex l).1) <> GetCommitIndex (node l) ->
  (size (matchIndex l) <
   2 * length (filter (fun kv =>
                         (GetCommitIndex (node (calcCommitIndex l).1)
                          <= kv.2)%Z)
                      (map_to_list (matchIndex l))))%nat.
Proof.
  intros Hne.
  destruct (calcCommitIndex_cases l) as [E|[Hlt E]];
    [by rewrite E in Hne|].
  rewrite E. cbn [node].
  change (GetCommitIndex (Signal (SetCommitIndex (node l) ?n))) with n.
  set (N := nextCommitIndex l) in *.
  set (vals := (map_to_list (matchIndex l)).*2).
  assert (Hvals : length vals = size (matchIndex l)).
  { unfold vals. by rewrite length_fmap, length_map_to_list. }
  assert (Hfil : length (filter (fun kv : RaftId * Z => N <= kv.2)
                           (map_to_list (matchIndex l)))
                 = length (filter (fun v => N <= v) vals)).
  { unfold vals. generalize (map_to_list (matchIndex l)).
    induction l0 as [|kv kvs IH]; [done|].
    rewrite fmap_cons. destruct (decide (N <= kv.2)).
    - rewrite !filter_cons_True by done. simpl. by rewrite IH.
    - by rewrite !filter_cons_False by done. }
  rewrite Hfil, <- Hvals.
  set (s := sort_Ints (collected l)).
  assert (Hperm : s ≡ₚ vals ++ [GetCommitIndex (node l)]).
  { unfold s. rewrite sort_Ints_perm. by rewrite collected_values. }
  assert (Hlen : length s = S (length vals)).
  { rewrite Hperm, length_app. simpl. lia. }
  assert (Hmid : (length s / 2 < length s)%nat).
  { apply Nat.div_lt; lia. }
  assert (HN : s !! (length s / 2)%nat = Some N).
  { unfold N, nextCommitIndex. fold s.
    destruct (lookup_lt_is_Some_2 s (length s / 2)) as [x Hx]; [done|].
    rewrite Hx. f_equal. symmetry. by apply list_lookup_total_correct. }
  pose proof (sorted_count s _ N (sort_Ints_sorted _) HN) as Hcount.
  assert (Hf : length (filter (fun v => N <= v) s)
               = length (filter (fun v => N <= v) vals)).
  { rewrite Hperm, filter_app, length_app.
    rewrite filter_cons_False by lia. rewrite filter_nil. simpl. lia. }
  rewrite Hf, Hlen in Hcount.
  pose proof (Nat.div_mod_eq (S (length vals)) 2) as Hdiv.
  pose proof (Nat.mod_upper_bound (S (length vals)) 2) as Hmod.
  rewrite Hlen in Hmid. lia.
Qed.

(** X26.  The order of [Range] does not matter.  In whatever order the
    pairs of [matchIndex] are visited, the sorted values, and with them the
    candidate that [calcCommitIndex] takes from their middle, are the
    same. *)
Theorem nextCommitIndex_order (l : leader) (pairs : list (RaftId * Z)) :
  pairs ≡ₚ map_to_list (matchIndex l) ->
  sort_Ints (collected_in pairs l) = sort_Ints (collected l) /\
  sort_Ints (collected_in pairs l)
    !!! (length (sort_Ints (collected_in pairs l)) / 2)%nat
  = nextCommitIndex l.
Proof.
  intros Hp.
  assert (H : sort_Ints (collected_in pairs l) = sort_Ints (collected l)).
  { apply sort_Ints_unique. rewrite collected_values.
    unfold collected_in. rewrite Range_pairs_collect. simpl.
    by rewrite Hp. }
  split; [done|]. by rewrite H.
Qed.

End LeaderMajority.

(** ** The leader: a successful round, and the wait for a majority *)

Section LeaderSuccess.

Import Raft Leader.

Lemma Last_lastIndex (r : raft) :
  Log.reachable (log r) -> Log.fits (log r) ->
  (Last r).1.1 = Z.of_nat (length (Log.queue (log r))).
Proof.
  intros Hr Hfit. pose proof (reachable_indexed _ Hr) as Hl.
  pose proof (lastIndex_length _ Hl Hfit) as Hlast.
  unfold Last, Log.Last, Log.lastIndex in *.
  destruct (Log.last (log r)) as [[i t] err]. simpl in *.
  rewrite Hlast. apply int_small. unfold Log.fits in Hfit. lia.
Qed.

(** X27.  After a round that sent entries and was accepted, [nextIndex] of
    the peer is one above the leader's last index, the round has sent on
    [replicateCh], and its loop ends. *)
Theorem round_success_nextIndex (l : leader) (id : RaftId) (next : Z)
    (call : AppendEntriesArgs -> option AppendEntriesResults) :
  Log.reachable (log (node l)) ->
  Z.of_nat (length (Log.queue (log (node l)))) + 1 < 2 ^ 63 ->
  (Last (node l)).1.2 = GetCurrentTerm (node l) ->
  nextIndex l !! id = Some next ->
  1 <= next <= Log.lastIndex (log (node l)) ->
  (forall args, exists results,
     call args = Some results /\ Success results = true) ->
  nextIndex (round l id call).1.1 !! id
    = Some (Log.lastIndex (log (node l)) + 1) /\
  (round l id call).1.2 = true /\
  (round l id call).2 = false.
Proof.
  intros Hr Hlen Hterm Hnext Hrange Hcall.
  assert (Hfit : Log.fits (log (node l))) by (unfold Log.fits; lia).
  pose proof (reachable_indexed _ Hr) as Hl.
  pose proof (indexed_contiguous _ Hl Hfit) as Hcont.
  pose proof (lastIndex_length _ Hl Hfit) as Hlast.
  pose proof (Last_lastIndex _ Hr Hfit) as HLast.
  rewrite Hlast in *.
  set (q := Log.queue (log (node l))) in *.
  assert (HA : exists args,
            roundArgs l id = Some (next, args) /\
            Entries args = drop (Z.to_nat (next - 1)) q).
  { unfold roundArgs, Load. rewrite Hnext.
    assert (HG : (Get (node l) (int (next - 1))).2 = None).
    { unfold Get.
      pose proof (Get_err (log (node l)) (uint64 (int (next - 1)))).
      by destruct (Log.Get _ _). }
    destruct (Get (node l) (int (next - 1))) as [prevLogTerm err].
    simpl in HG. subst err.
    destruct (Last (node l)) as [[lastLogIndex lastLogTerm] e0].
    cbn [fst snd] in *. subst lastLogTerm lastLogIndex.
    rewrite Z.eqb_refl.
    destruct (Z.geb_spec (Z.of_nat (length q)) next); [|lia].
    unfold RangeGet. rewrite (int_small (next - 1)) by lia.
    rewrite !uint64_small by lia.
    rewrite RangeGet_slice by (done || lia). fold q.
    rewrite Z.min_id, take_ge by (rewrite length_drop; lia).
    eexists. split; [reflexivity|]. done. }
  destruct HA as (args & HA & HE).
  destruct (Hcall args) as (results & Hres & Hok).
  unfold round. rewrite HA, Hres. unfold roundResults. rewrite Hok, HE.
  assert (Hd : (0 < length (drop (Z.to_nat (next - 1)) q))%nat)
    by (rewrite length_drop; lia).
  destruct (Nat.ltb_spec 0 (length (drop (Z.to_nat (next - 1)) q))); [|lia].
  destruct (lookup_lt_is_Some_2 q (length q - 1)) as [e He]; [lia|].
  assert (Hlk : drop (Z.to_nat (next - 1)) q
                !! (length (drop (Z.to_nat (next - 1)) q) - 1)%nat = Some e).
  { rewrite lookup_drop, length_drop. rewrite <- He. f_equal. lia. }
  rewrite Hlk. rewrite (Hcont _ _ He).
  replace (Z.of_nat (length q - 1) + 1) with (Z.of_nat (length q)) by lia.
  rewrite int_small by lia.
  match goal with
  | |- context [calcCommitIndex ?x] =>
      destruct (calcCommitIndex_cases x) as [E|[_ E]];
      destruct (calcCommitIndex x) as [l' err'];
      cbn [fst] in E; subst l'
  end; cbn [fst snd nextIndex]; unfold Store;
    by rewrite lookup_insert_eq.
Qed.

Lemma waitReplication_count (peers : nat) (picks : list pick) (j : nat) :
  Z.of_nat peers < 2 ^ 63 -> (j <= peers / 2)%nat ->
  (waitReplication peers (Z.of_nat j) picks = Some None <->
   take (peers / 2 + 1 - j) picks
     = replicate (peers / 2 + 1 - j) pick_replicateCh) /\
  (waitReplication peers (Z.of_nat j) picks = Some (Some ErrCommitTimeout) <->
   exists k : nat,
     (k < peers / 2 + 1 - j)%nat /\ picks !! k = Some pick_done /\
     take k picks = replicate k pick_replicateCh).
Proof.
  intros Hn.
  assert (Hdiv : (2 * (peers / 2) <= peers)%nat)
    by apply Nat.Div0.mul_div_le.
  remember (peers / 2)%nat as m eqn:Hm.
  revert j. induction picks as [|p picks IH]; intros j Hj.
  - replace (m + 1 - j)%nat with (S (m - j)) by lia.
    split; (split; [done|]).
    + cbn. done.
    + intros (k & _ & Hk & _). done.
  - replace (m + 1 - j)%nat with (S (m - j)) by lia.
    destruct p; cbn [waitReplication]; rewrite <- ?Hm.
    + split; split; try done.
      intros _. exists 0%nat. split; [lia|by split].
    + rewrite int_small by lia.
      destruct (Z.gtb_spec (Z.of_nat j + 1) (Z.of_nat m)) as [Hgt|Hle].
      * replace (m - j)%nat with 0%nat by lia. cbn [take replicate].
        rewrite take_0. split; split; try done.
        intros (k & Hk & Hd & _). destruct k; [done|lia].
      * replace (Z.of_nat j + 1) with (Z.of_nat (S j)) by lia.
        destruct (IH (S j)) as [IH1 IH2]; [lia|].
        replace (m + 1 - S j)%nat with (m - j)%nat in * by lia.
        rewrite IH1, IH2. cbn [take replicate]. split.
        -- split; [by intros ->|by intros [= ->]].
        -- split.
           ++ intros (k & Hk & Hd & Ht). exists (S k).
              cbn. rewrite Ht. split; [lia|by split].
           ++ intros (k & Hk & Hd & Ht). destruct k as [|k]; [done|].
              cbn in Hd, Ht. exists k. injection Ht as Ht.
              split; [lia|by split].
Qed.

(** X28.  The wait for a majority.  With [n] peers the loop that ends
    [callAppendEntriesWithAll] returns success exactly when its first
    [n / 2 + 1] rounds all receive from [replicateCh], and
    [ErrCommitTimeout] exactly when [done] is taken in one of those rounds
    with only receives before it. *)
Theorem waitReplication_majority (peers : nat) (picks : list pick) :
  Z.of_nat peers < 2 ^ 63 ->
  (waitReplication peers 0 picks = Some None <->
   take (peers / 2 + 1) picks = replicate (peers / 2 + 1) pick_replicateCh) /\
  (waitReplication peers 0 picks = Some (Some ErrCommitTimeout) <->
   exists k : nat,
     (k < peers / 2 + 1)%nat /\ picks !! k = Some pick_done /\
     take k picks = replicate k pick_replicateCh).
Proof.
  intros Hn.
  destruct (waitReplication_count peers picks 0 Hn) as [H1 H2]; [lia|].
  rewrite Nat.sub_0_r in *. by split.
Qed.

End LeaderSuccess.

(** ** Instances *)

Section Instances.

Import Raft Leader.

Lemma reachable_leader1 : Log.reachable (log (node Scenario.leader1)).
Proof.
  change (log (node Scenario.leader1))
    with (Log.Append (Log.mkLog [])
            (Commit_entries 1 ["x"])).1.1.
  apply Log.reachable_Append, Log.reachable_new.
Qed.

Lemma Last_Get_Match_witness :
  Log.Get Scenario.log3 (Log.lastIndex Scenario.log3)
    = (Log.lastTerm Scenario.log3, None) /\
  Log.Match Scenario.log3 (Log.lastIndex Scenario.log3)
    (Log.lastTerm Scenario.log3) = (true, None).
Proof.
  destruct (Last_Get_Match Scenario.log3) as (_ & H2 & H3 & _).
  - apply reachable_log3.
  - vm_compute; reflexivity.
  - by split.
Defined.

Lemma Get_entry_witness :
  exists t, Log.hasEntry Scenario.log3 2 t.
Proof.
  destruct (Get_entry Scenario.log3 2) as (_ & H & _).
  - apply reachable_log3.
  - vm_compute; reflexivity.
  - lia.
  - apply H. vm_compute. split; discriminate.
Defined.

Lemma RangeGet_entries_witness :
  exists entries,
    Log.RangeGet Scenario.log3 1 9 = Some (entries, None) /\
    map Log.Index entries = [2; 3].
Proof.
  destruct (RangeGet_entries Scenario.log3 1 9) as (es & H1 & _ & H3 & _).
  - apply reachable_log3.
  - vm_compute; reflexivity.
  - lia.
  - lia.
  - exists es. split; [exact H1|exact H3].
Defined.

Lemma AppendEntry_Append_witness :
  (Log.AppendEntry Scenario.log3 (Scenario.entry 2 "w")).1.2 = 4 /\
  Log.Get (Log.AppendEntry Scenario.log3 (Scenario.entry 2 "w")).1.1 4
    = (2, None).
Proof.
  destruct (AppendEntry_Append Scenario.log3 (Scenario.entry 2 "w"))
    as (_ & _ & H3 & _ & H5).
  - apply reachable_log3.
  - vm_compute; reflexivity.
  - split; [exact H3|exact H5].
Defined.

Lemma Append_preserves_witness :
  Log.lastIndex (Log.Append Scenario.log3 [Scenario.entry 2 "w"]).1.1 = 4 /\
  Log.Get (Log.Append Scenario.log3 [Scenario.entry 2 "w"]).1.1 2
    = Log.Get Scenario.log3 2.
Proof.
  destruct (Append_preserves Scenario.log3 [Scenario.entry 2 "w"])
    as (_ & H2 & H3 & _).
  - apply reachable_log3.
  - vm_compute; reflexivity.
  - split; [exact H2|]. apply H3. vm_compute. split; discriminate.
Defined.

Lemma AppendAt_truncates_witness :
  Log.lastIndex (Log.AppendAt Scenario.log3 1 []).1.1 = 1 /\
  Log.Get (Log.AppendAt Scenario.log3 1 []).1.1 3 = (0, None).
Proof.
  destruct (AppendAt_truncates Scenario.log3 1 []) as (H1 & _ & _ & H4).
  - apply reachable_log3.
  - vm_compute; reflexivity.
  - vm_compute. split; discriminate.
  - split; [exact H1|]. apply H4. simpl. lia.
Defined.

Lemma AppendAt_idempotent_witness :
  Log.AppendAt (Log.AppendAt Scenario.log3 1 [Scenario.entry 3 "w"]).1.1 1
    [Scenario.entry 3 "w"]
  = Log.AppendAt Scenario.log3 1 [Scenario.entry 3 "w"].
Proof.
  destruct (AppendAt_idempotent Scenario.log3 1 [Scenario.entry 3 "w"])
    as (_ & H).
  - apply reachable_log3.
  - vm_compute; reflexivity.
  - vm_compute. split; discriminate.
  - exact H.
Defined.

Lemma AppendAt_lastIndex_witness :
  Log.AppendAt Scenario.log3 (Log.lastIndex Scenario.log3)
    [Scenario.entry 3 "w"]
  = Log.Append Scenario.log3 [Scenario.entry 3 "w"].
Proof.
  apply (AppendAt_lastIndex Scenario.log3 [Scenario.entry 3 "w"]).
  - apply reachable_log3.
  - vm_compute; reflexivity.
Defined.

Lemma AppendAt_error_witness :
  (Log.AppendAt Scenario.log3 4 [Scenario.entry 3 "w"]).2 <> None <->
  Z.of_nat (length (Log.queue Scenario.log3)) < 4.
Proof.
  destruct (AppendAt_error Scenario.log3 4 [Scenario.entry 3 "w"])
    as (_ & H & _).
  - vm_compute; reflexivity.
  - lia.
  - exact H.
Defined.

Lemma ToLeader_invariant_witness :
  nextIndex Scenario.leader0 !! "B" = Some (Log.lastIndex (Log.mkLog []) + 1) /\
  matchIndex Scenario.leader0 !! "B" = Some 0.
Proof.
  destruct (ToLeader_invariant Scenario.nodeA Scenario.leader0 "B")
    as (H1 & H2 & _).
  - apply Log.reachable_new.
  - vm_compute; reflexivity.
  - vm_compute; reflexivity.
  - vm_compute; reflexivity.
  - split; [exact H1|exact H2].
Defined.

Lemma ToCandidate_initServer_witness :
  exists l,
    initServer (ToCandidate Scenario.voter).1 = (Some (Leader l), None) /\
    GetCurrentTerm (node l) = int (GetCurrentTerm Scenario.voter + 1).
Proof.
  destruct (ToCandidate_initServer Scenario.voter) as (l & H1 & _ & H3 & _).
  - discriminate.
  - exists l. split; [exact H1|exact H3].
Defined.

Lemma ApplyCommitted_batch_witness :
  exists entries,
    map Log.Cmd entries = ["y"; "z"] /\
    ApplyCommitted Scenario.applyAll Scenario.follower3 =
      Some (match (Scenario.applyAll (map Log.Cmd entries)).2 with
            | Some e => (Scenario.follower3, Some e)
            | None =>
                (SetLastApplied Scenario.follower3
                   (int (GetLastApplied Scenario.follower3
                         + (Scenario.applyAll (map Log.Cmd entries)).1)),
                 None)
            end).
Proof.
  destruct (ApplyCommitted_batch Scenario.applyAll Scenario.follower3)
    as (es & _ & H2 & _ & H4).
  - apply reachable_log3.
  - vm_compute; reflexivity.
  - vm_compute. split; [discriminate|reflexivity].
  - vm_compute. split; [discriminate|reflexivity].
  - exists es. split; [|exact H4]. rewrite H2. vm_compute. reflexivity.
Defined.

Lemma ApplyCommitted_twice_witness :
  exists r',
    ApplyCommitted Scenario.applyAll Scenario.follower3 = Some (r', None) /\
    GetLastApplied r' = GetCommitIndex Scenario.follower3.
Proof.
  destruct (ApplyCommitted_twice Scenario.applyAll Scenario.applyAll
              Scenario.follower3) as (r' & H1 & H2 & _).
  - apply reachable_log3.
  - vm_compute; reflexivity.
  - vm_compute. split; discriminate.
  - vm_compute. discriminate.
  - intros commands. reflexivity.
  - exists r'. split; [exact H1|exact H2].
Defined.


Lemma roundArgs_entries_witness :
  exists args,
    roundArgs Scenario.leader1 "B" = Some (1, args) /\
    Entries args = drop (Z.to_nat (1 - 1))
                     (Log.queue (log (node Scenario.leader1))).
Proof.
  destruct (roundArgs_entries Scenario.leader1 "B" 1)
    as (args & H1 & _ & H3 & _).
  - apply reachable_leader1.
  - vm_compute; reflexivity.
  - vm_compute; reflexivity.
  - vm_compute; reflexivity.
  - vm_compute. split; discriminate.
  - exists args. split; [exact H1|exact H3].
Defined.

Lemma round_other_peers_witness :
  Load (nextIndex (round Scenario.leader1 "B" Scenario.accept).1.1) "C"
    = Load (nextIndex Scenario.leader1) "C" /\
  Load (matchIndex (round Scenario.leader1 "B" Scenario.accept).1.1) "C"
    = Load (matchIndex Scenario.leader1) "C".
Proof.
  apply (round_other_peers Scenario.leader1 "B" "C" Scenario.accept).
  discriminate.
Defined.

Lemma round_no_signal_witness :
  node (round Scenario.leader0 "B" Scenario.reject).1.1 = node Scenario.leader0 /\
  matchIndex (round Scenario.leader0 "B" Scenario.reject).1.1
    = matchIndex Scenario.leader0.
Proof.
  destruct (round_no_signal Scenario.leader0 "B" Scenario.reject)
    as (H1 & H2 & _).
  - vm_compute; reflexivity.
  - split; [exact H1|exact H2].
Defined.

Lemma calcCommitIndex_majority_witness :
  (size (matchIndex Scenario.leader4_stored) <
   2 * length (filter (fun kv =>
                 (GetCommitIndex
                    (node (calcCommitIndex Scenario.leader4_stored).1)
                  <= kv.2)%Z)
               (map_to_list (matchIndex Scenario.leader4_stored))))%nat.
Proof.
  apply (calcCommitIndex_majority Scenario.leader4_stored).
  vm_compute. discriminate.
Defined.

Lemma nextCommitIndex_order_witness :
  sort_Ints (collected_in
               (reverse (map_to_list (matchIndex Scenario.leader3)))
               Scenario.leader3)
  = sort_Ints (collected Scenario.leader3).
Proof.
  destruct (nextCommitIndex_order Scenario.leader3
              (reverse (map_to_list (matchIndex Scenario.leader3))))
    as (H & _).
  - apply reverse_Permutation.
  - exact H.
Defined.

Lemma round_success_nextIndex_witness :
  nextIndex (round Scenario.leader1 "B" Scenario.accept).1.1 !! "B"
    = Some (Log.lastIndex (log (node Scenario.leader1)) + 1).
Proof.
  destruct (round_success_nextIndex Scenario.leader1 "B" 1 Scenario.accept)
    as (H & _).
  - apply reachable_leader1.
  - vm_compute; reflexivity.
  - vm_compute; reflexivity.
  - vm_compute; reflexivity.
  - vm_compute. split; discriminate.
  - intros args. eexists. split; reflexivity.
  - exact H.
Defined.

Lemma waitReplication_majority_witness :
  waitReplication 3 0 [pick_replicateCh; pick_replicateCh; pick_done]
    = Some None <->
  take (3 / 2 + 1) [pick_replicateCh; pick_replicateCh; pick_done]
    = replicate (3 / 2 + 1) pick_replicateCh.
Proof.
  destruct (waitReplication_majority 3
              [pick_replicateCh; pick_replicateCh; pick_done]) as (H & _).
  - vm_compute; reflexivity.
  - exact H.
Defined.

End Instances.
